(** * UPF extension: synchronisation bridge and routing table

    Shallow embedding of
      - [sync_algorithm_interface.h]  (result codes and structures),
      - [sync_algorithm_bridge.c]     (the engine behind the interface),
      - [routing_table_manager.c]     (the linked-list routing table),
    followed by the properties of the specification that concern them.

    Conventions of the embedding.
      - A fixed-width unsigned integer is a [Z] in its range; [x++] on a
        [uintN_t] is written with its wrap-around.
      - A [double] is an IEEE-754 binary64 value ([spec_float]).
      - A [const char *] argument is an [option string]: [None] is the null
        pointer, [Some s] points to the bytes of [s] followed by the
        terminating zero (so [s] itself holds no zero byte).
      - The file-scope globals of each translation unit are a value that
        every entry point receives and returns.  Calls are taken one at a
        time: an entry point updates its globals under the unit's mutex, so
        one call is one step of the state.
      - [time(NULL)] and [malloc] are inputs of the call ([now], [malloc_ok]).
      - The diagnostic [printf] lines have no influence on results or state
        and are left out. *)

From Stdlib Require Import ZArith List String Ascii Bool Lia.
From Stdlib Require Import SpecFloat.
Import ListNotations.

Local Open Scope string_scope.
Local Open Scope Z_scope.

(** ** C scalar types *)

Module CTypes.

Definition UINT32_MOD : Z := 2 ^ 32.
Definition UINT64_MOD : Z := 2 ^ 64.

Definition wrap32 (x : Z) : Z := x mod UINT32_MOD.
Definition wrap64 (x : Z) : Z := x mod UINT64_MOD.

Definition is_uint32 (x : Z) : Prop := 0 <= x < UINT32_MOD.

(** binary64: 53 bits of precision, exponents below 1024. *)
Definition double : Type := spec_float.
Definition double_zero : double := S754_zero false.

(** The conversion [(double) t] of an integer, rounding to nearest even. *)
Definition double_of_Z (t : Z) : double := binary_normalize 53 1024 t 0 false.

(** [0.0 < x] on doubles; false for zeros, negatives and NaN. *)
Definition double_is_positive (x : double) : bool := SFltb double_zero x.

(** The literals [-1.0], [0.01] and [5.0]. *)
Definition double_minus_one : double := S754_finite true 4503599627370496 (-52).
Definition double_one_hundredth : double := S754_finite false 5764607523034235 (-59).
Definition double_five : double := S754_finite false 5629499534213120 (-50).

(** [strcmp]: only the sign of the result is specified by C. *)
Definition strcmp (a b : string) : Z :=
  match String.compare a b with
  | Eq => 0
  | Lt => -1
  | Gt => 1
  end.

(** [strncpy (dst, src, n); dst[n] = '\0'] seen as a C string: the first [n]
    bytes of [src], or all of [src] when it is shorter. *)
Fixpoint strncpy (n : nat) (src : string) : string :=
  match n, src with
  | O, _ => EmptyString
  | S _, EmptyString => EmptyString
  | S n', String c rest => String c (strncpy n' rest)
  end.

End CTypes.
Import CTypes.

(** ** sync_algorithm_interface.h *)

Inductive sync_result_t : Type :=
| SYNC_SUCCESS
| SYNC_ERROR_INVALID_PARAM
| SYNC_ERROR_UE_NOT_FOUND
| SYNC_ERROR_SATELLITE_NOT_FOUND
| SYNC_ERROR_HANDOVER_IN_PROGRESS
| SYNC_ERROR_ROUTING_UPDATE_FAILED
| SYNC_ERROR_MEMORY_ALLOCATION
| SYNC_ERROR_TIMEOUT.

(** The enumerators' integer values. *)
Definition sync_result_code (r : sync_result_t) : Z :=
  match r with
  | SYNC_SUCCESS => 0
  | SYNC_ERROR_INVALID_PARAM => -1
  | SYNC_ERROR_UE_NOT_FOUND => -2
  | SYNC_ERROR_SATELLITE_NOT_FOUND => -3
  | SYNC_ERROR_HANDOVER_IN_PROGRESS => -4
  | SYNC_ERROR_ROUTING_UPDATE_FAILED => -5
  | SYNC_ERROR_MEMORY_ALLOCATION => -6
  | SYNC_ERROR_TIMEOUT => -7
  end.

Record ue_context_t : Type := mk_ue_context {
  ue_id : string;
  current_satellite_id : string;
  target_satellite_id : string;
  ipv4_addr : Z;
  predicted_handover_time : double;
  handover_in_progress : bool;
  access_strategy : Z
}.

Record satellite_info_t : Type := mk_satellite_info {
  satellite_id : string;
  sat_gnb_ip : Z;
  sat_gnb_port : Z;
  latitude : double;
  longitude : double;
  altitude : double;
  is_active : bool;
  connected_ue_count : Z
}.

(** [ue_id] of the C structure is [ev_ue_id] here (the name is taken by
    [ue_context_t]); [result] is [ev_result]. *)
Record handover_event_t : Type := mk_handover_event {
  ev_ue_id : string;
  source_satellite : string;
  target_satellite : string;
  trigger_time : double;
  completion_time : double;
  ev_result : sync_result_t;
  error_message : string
}.

Record sync_algorithm_status_t : Type := mk_status {
  algorithm_running : bool;
  total_ue_count : Z;
  active_handover_count : Z;
  last_update_time : double;
  total_handover_count : Z;
  successful_handover_count : Z;
  average_handover_latency : double
}.

(** What [memset (&status, 0, sizeof status)] leaves, and the static
    initialiser [{0}]. *)
Definition status_zero : sync_algorithm_status_t :=
  {| algorithm_running := false;
     total_ue_count := 0;
     active_handover_count := 0;
     last_update_time := double_zero;
     total_handover_count := 0;
     successful_handover_count := 0;
     average_handover_latency := double_zero |}.

(** Field assignments. *)
Definition set_algorithm_running (b : bool) (s : sync_algorithm_status_t) :=
  {| algorithm_running := b;
     total_ue_count := total_ue_count s;
     active_handover_count := active_handover_count s;
     last_update_time := last_update_time s;
     total_handover_count := total_handover_count s;
     successful_handover_count := successful_handover_count s;
     average_handover_latency := average_handover_latency s |}.

Definition set_total_ue_count (n : Z) (s : sync_algorithm_status_t) :=
  {| algorithm_running := algorithm_running s;
     total_ue_count := n;
     active_handover_count := active_handover_count s;
     last_update_time := last_update_time s;
     total_handover_count := total_handover_count s;
     successful_handover_count := successful_handover_count s;
     average_handover_latency := average_handover_latency s |}.

Definition set_last_update_time (t : double) (s : sync_algorithm_status_t) :=
  {| algorithm_running := algorithm_running s;
     total_ue_count := total_ue_count s;
     active_handover_count := active_handover_count s;
     last_update_time := t;
     total_handover_count := total_handover_count s;
     successful_handover_count := successful_handover_count s;
     average_handover_latency := average_handover_latency s |}.

Definition set_total_handover_count (n : Z) (s : sync_algorithm_status_t) :=
  {| algorithm_running := algorithm_running s;
     total_ue_count := total_ue_count s;
     active_handover_count := active_handover_count s;
     last_update_time := last_update_time s;
     total_handover_count := n;
     successful_handover_count := successful_handover_count s;
     average_handover_latency := average_handover_latency s |}.

Definition set_successful_handover_count (n : Z) (s : sync_algorithm_status_t) :=
  {| algorithm_running := algorithm_running s;
     total_ue_count := total_ue_count s;
     active_handover_count := active_handover_count s;
     last_update_time := last_update_time s;
     total_handover_count := total_handover_count s;
     successful_handover_count := n;
     average_handover_latency := average_handover_latency s |}.

(** ** sync_algorithm_bridge.c *)

Module Bridge.

(** The file-scope variables [g_initialized] and [g_status]. *)
Record globals : Type := mk_globals {
  g_initialized : bool;
  g_status : sync_algorithm_status_t
}.

(** Their static initialisers. *)
Definition initial_globals : globals :=
  {| g_initialized := false; g_status := status_zero |}.

(** An entry point is a computation over the globals. *)
Definition M (A : Type) : Type := globals -> A * globals.

Definition ret {A} (a : A) : M A := fun g => (a, g).
Definition bind {A B} (c : M A) (k : A -> M B) : M B :=
  fun g => let (a, g') := c g in k a g'.
Definition read {A} (f : globals -> A) : M A := fun g => (f g, g).
Definition write_initialized (b : bool) : M unit :=
  fun g => (tt, {| g_initialized := b; g_status := g_status g |}).
Definition update_status
    (f : sync_algorithm_status_t -> sync_algorithm_status_t) : M unit :=
  fun g => (tt, {| g_initialized := g_initialized g; g_status := f (g_status g) |}).

Declare Scope bridge_scope.
Delimit Scope bridge_scope with bridge.
Notation "x <- c ;; k" := (bind c (fun x => k))
  (at level 61, c at next level, right associativity) : bridge_scope.
Notation "c ;; k" := (bind c (fun _ => k))
  (at level 61, right associativity) : bridge_scope.
Local Open Scope bridge_scope.

Definition is_null {A} (p : option A) : bool :=
  match p with None => true | Some _ => false end.

Definition sync_algorithm_init (now : Z) : M sync_result_t :=
  initialized <- read g_initialized ;;
  if initialized then ret SYNC_SUCCESS
  else
    update_status (fun _ => status_zero) ;;
    update_status (set_algorithm_running false) ;;
    update_status (set_last_update_time (double_of_Z now)) ;;
    write_initialized true ;;
    ret SYNC_SUCCESS.

Definition sync_algorithm_cleanup : M unit :=
  write_initialized false ;;
  update_status (set_algorithm_running false).

Definition sync_algorithm_register_ue (ue_context : option ue_context_t)
  : M sync_result_t :=
  initialized <- read g_initialized ;;
  if is_null ue_context || negb initialized then ret SYNC_ERROR_INVALID_PARAM
  else
    update_status (fun s => set_total_ue_count (wrap32 (total_ue_count s + 1)) s) ;;
    ret SYNC_SUCCESS.

Definition sync_algorithm_unregister_ue (ue_id : option string)
  : M sync_result_t :=
  initialized <- read g_initialized ;;
  if is_null ue_id || negb initialized then ret SYNC_ERROR_INVALID_PARAM
  else
    update_status (fun s =>
      if total_ue_count s >? 0
      then set_total_ue_count (wrap32 (total_ue_count s - 1)) s
      else s) ;;
    ret SYNC_SUCCESS.

Definition sync_algorithm_trigger_handover
    (ue_id target_satellite_id : option string) (predicted_time : double)
    (now : Z) : M sync_result_t :=
  initialized <- read g_initialized ;;
  if is_null ue_id || is_null target_satellite_id || negb initialized
  then ret SYNC_ERROR_INVALID_PARAM
  else
    update_status (fun s =>
      set_total_handover_count (wrap64 (total_handover_count s + 1)) s) ;;
    update_status (fun s =>
      set_successful_handover_count (wrap64 (successful_handover_count s + 1)) s) ;;
    update_status (set_last_update_time (double_of_Z now)) ;;
    ret SYNC_SUCCESS.

(** [status] is the caller's buffer: [None] for a null pointer, otherwise its
    content before the call.  The second component of the result is its
    content after the call. *)
Definition sync_algorithm_get_status (status : option sync_algorithm_status_t)
  : M (sync_result_t * option sync_algorithm_status_t) :=
  initialized <- read g_initialized ;;
  if is_null status || negb initialized
  then ret (SYNC_ERROR_INVALID_PARAM, status)
  else
    s <- read g_status ;;
    ret (SYNC_SUCCESS, Some s).

Definition sync_algorithm_update_ue_position
    (ue_id : option string) (latitude longitude altitude : double)
  : M sync_result_t :=
  initialized <- read g_initialized ;;
  if is_null ue_id || negb initialized then ret SYNC_ERROR_INVALID_PARAM
  else ret SYNC_SUCCESS.

Definition sync_algorithm_start_periodic_update : M sync_result_t :=
  initialized <- read g_initialized ;;
  if negb initialized then ret SYNC_ERROR_INVALID_PARAM
  else
    update_status (set_algorithm_running true) ;;
    ret SYNC_SUCCESS.

Definition sync_algorithm_stop_periodic_update : M sync_result_t :=
  initialized <- read g_initialized ;;
  if negb initialized then ret SYNC_ERROR_INVALID_PARAM
  else
    update_status (set_algorithm_running false) ;;
    ret SYNC_SUCCESS.

(** The three entry points below return without reading their arguments
    or the globals; an output buffer keeps its content. *)
Definition sync_algorithm_get_ue_context
    (ue_id : option string) (ue_context : option ue_context_t)
  : M (sync_result_t * option ue_context_t) :=
  ret (SYNC_SUCCESS, ue_context).

Definition sync_algorithm_get_satellite_info
    (satellite_id : option string) (satellite_info : option satellite_info_t)
  : M (sync_result_t * option satellite_info_t) :=
  ret (SYNC_SUCCESS, satellite_info).

Definition sync_algorithm_update_routing_table
    (ue_id : option string) (new_gnb_ip new_gnb_port : Z) : M sync_result_t :=
  ret SYNC_SUCCESS.

Definition sync_algorithm_set_parameters
    (delta_t binary_search_precision : double) : M sync_result_t :=
  ret SYNC_SUCCESS.

(** [events] and [actual_count] are the caller's buffers ([None] when null)
    with their content before the call; the result carries their content
    after it.  [events] is never written. *)
Definition sync_algorithm_get_recent_handover_events
    (events : option (list handover_event_t)) (max_events : Z)
    (actual_count : option Z)
  : M (sync_result_t * option (list handover_event_t) * option Z) :=
  let actual_count' :=
    match actual_count with
    | Some _ => Some 0
    | None => None
    end in
  ret (SYNC_SUCCESS, events, actual_count').

(** The events a caller reads back: the first [*actual_count] elements of
    its buffer. *)
Definition events_read_back
    (out : sync_result_t * option (list handover_event_t) * option Z)
  : list handover_event_t :=
  match out with
  | (_, Some buffer, Some n) => firstn (Z.to_nat n) buffer
  | _ => []
  end.

(** *** Sequences of calls

    A client of the interface is a sequence of calls; each call carries the
    inputs it passes and the clock reading it meets. *)

Inductive call : Type :=
| call_init (now : Z)
| call_cleanup
| call_register_ue (ue_context : option ue_context_t)
| call_unregister_ue (ue_id : option string)
| call_trigger_handover (ue_id target_satellite_id : option string)
    (predicted_time : double) (now : Z)
| call_update_ue_position (ue_id : option string)
    (latitude longitude altitude : double)
| call_start_periodic_update
| call_stop_periodic_update
| call_set_parameters (delta_t binary_search_precision : double).

(** The result code of one call; [None] for the [void] function. *)
Definition exec (c : call) : M (option sync_result_t) :=
  match c with
  | call_init now => r <- sync_algorithm_init now ;; ret (Some r)
  | call_cleanup => sync_algorithm_cleanup ;; ret None
  | call_register_ue ctx => r <- sync_algorithm_register_ue ctx ;; ret (Some r)
  | call_unregister_ue id => r <- sync_algorithm_unregister_ue id ;; ret (Some r)
  | call_trigger_handover id sat t now =>
      r <- sync_algorithm_trigger_handover id sat t now ;; ret (Some r)
  | call_update_ue_position id la lo al =>
      r <- sync_algorithm_update_ue_position id la lo al ;; ret (Some r)
  | call_start_periodic_update =>
      r <- sync_algorithm_start_periodic_update ;; ret (Some r)
  | call_stop_periodic_update =>
      r <- sync_algorithm_stop_periodic_update ;; ret (Some r)
  | call_set_parameters dt pr =>
      r <- sync_algorithm_set_parameters dt pr ;; ret (Some r)
  end.

(** What a run records of each call: the call, the globals it met and its
    result. *)
Record log_entry : Type := mk_log_entry {
  le_call : call;
  le_before : globals;
  le_result : option sync_result_t
}.

Fixpoint run (cs : list call) : M (list log_entry) :=
  match cs with
  | [] => ret []
  | c :: rest =>
      before <- read (fun g => g) ;;
      r <- exec c ;;
      log <- run rest ;;
      ret ({| le_call := c; le_before := before; le_result := r |} :: log)
  end.

Definition succeeded (e : log_entry) : bool :=
  match le_result e with
  | Some SYNC_SUCCESS => true
  | _ => false
  end.

Definition is_register (c : call) : bool :=
  match c with call_register_ue _ => true | _ => false end.

Definition is_unregister (c : call) : bool :=
  match c with call_unregister_ue _ => true | _ => false end.

(** Calls that are [register_ue] or [unregister_ue]. *)
Definition is_ue_call (c : call) : bool := is_register c || is_unregister c.

Definition count_entries (p : log_entry -> bool) (log : list log_entry) : Z :=
  Z.of_nat (List.length (filter p log)).

(** Successful [register_ue] and [unregister_ue] calls of a run. *)
Definition successful_registers (log : list log_entry) : Z :=
  count_entries (fun e => is_register (le_call e) && succeeded e) log.

Definition successful_unregisters (log : list log_entry) : Z :=
  count_entries (fun e => is_unregister (le_call e) && succeeded e) log.

(** Successful [unregister_ue] calls that met a count of zero. *)
Definition floored_unregisters (log : list log_entry) : Z :=
  count_entries
    (fun e => is_unregister (le_call e) && succeeded e
              && (total_ue_count (g_status (le_before e)) =? 0)) log.

(** No call of the sequence registers the identifier [id]. *)
Definition never_registered (id : string) (cs : list call) : bool :=
  forallb (fun c =>
             match c with
             | call_register_ue (Some ctx) => negb (String.eqb (ue_id ctx) id)
             | _ => true
             end) cs.

End Bridge.

(** ** routing_table_manager.c *)

Module Routing.

(** [ue_id] of the C structure is [re_ue_id] here; [next] is the tail of the
    list. *)
Record routing_entry_t : Type := mk_routing_entry {
  re_ue_id : string;
  gnb_ip : Z;
  gnb_port : Z;
  last_update : Z
}.

(** The chain of entries reached from [g_routing_table], head first; the
    static initialiser [NULL] is the empty list. *)
Definition table : Type := list routing_entry_t.
Definition initial_table : table := [].

(** [sizeof (entry->ue_id)]. *)
Definition UE_ID_SIZE : nat := 64.

(** The [while (entry)] scan: the first entry whose identifier compares equal
    is overwritten in place; [None] when the scan reaches the end. *)
Fixpoint update_first_match (ue_id : string) (gnb_ip gnb_port now : Z)
    (entry : table) : option table :=
  match entry with
  | [] => None
  | e :: next =>
      if strcmp (re_ue_id e) ue_id =? 0
      then Some ({| re_ue_id := re_ue_id e;
                    gnb_ip := gnb_ip;
                    gnb_port := gnb_port;
                    last_update := now |} :: next)
      else match update_first_match ue_id gnb_ip gnb_port now next with
           | Some next' => Some (e :: next')
           | None => None
           end
  end.

(** The entry built after a successful [malloc]. *)
Definition new_entry (ue_id : string) (gnb_ip gnb_port now : Z) : routing_entry_t :=
  {| re_ue_id := strncpy (UE_ID_SIZE - 1) ue_id;
     gnb_ip := gnb_ip;
     gnb_port := gnb_port;
     last_update := now |}.

Definition update_routing_entry (ue_id : option string) (gnb_ip gnb_port : Z)
    (now : Z) (malloc_ok : bool) (g_routing_table : table)
  : sync_result_t * table :=
  match ue_id with
  | None => (SYNC_ERROR_INVALID_PARAM, g_routing_table)
  | Some id =>
      match update_first_match id gnb_ip gnb_port now g_routing_table with
      | Some updated => (SYNC_SUCCESS, updated)
      | None =>
          if malloc_ok
          then (SYNC_SUCCESS, new_entry id gnb_ip gnb_port now :: g_routing_table)
          else (SYNC_ERROR_MEMORY_ALLOCATION, g_routing_table)
      end
  end.

Definition cleanup_routing_table (g_routing_table : table) : table := [].

(** One call of [update_routing_entry] with the inputs it receives. *)
Record upsert_call : Type := mk_upsert {
  up_ue_id : option string;
  up_gnb_ip : Z;
  up_gnb_port : Z;
  up_now : Z;
  up_malloc_ok : bool
}.

Definition do_upsert (c : upsert_call) (t : table) : table :=
  snd (update_routing_entry (up_ue_id c) (up_gnb_ip c) (up_gnb_port c)
         (up_now c) (up_malloc_ok c) t).

Definition run_upserts (cs : list upsert_call) (t : table) : table :=
  fold_left (fun acc c => do_upsert c acc) cs t.

(** The identifiers stored in the table, head first. *)
Definition stored_ids (t : table) : list string := map re_ue_id t.

(** Number of entries stored under an identifier. *)
Definition entries_for (id : string) (t : table) : nat :=
  List.length (filter (fun e => String.eqb (re_ue_id e) id) t).

End Routing.

(** ** Result kinds named by the specification

    Its interface section lists eight kinds, one per enumerator of
    [sync_result_t]; its lifecycle section names a ninth, [NotInitialized],
    for which the enumeration has no member. *)

Inductive result_kind : Type :=
| Success
| InvalidParameter
| UeNotFound
| SatelliteNotFound
| HandoverInProgress
| RoutingUpdateFailed
| MemoryAllocationFailed
| Timeout
| NotInitialized.

Definition kind_of_result (r : sync_result_t) : result_kind :=
  match r with
  | SYNC_SUCCESS => Success
  | SYNC_ERROR_INVALID_PARAM => InvalidParameter
  | SYNC_ERROR_UE_NOT_FOUND => UeNotFound
  | SYNC_ERROR_SATELLITE_NOT_FOUND => SatelliteNotFound
  | SYNC_ERROR_HANDOVER_IN_PROGRESS => HandoverInProgress
  | SYNC_ERROR_ROUTING_UPDATE_FAILED => RoutingUpdateFailed
  | SYNC_ERROR_MEMORY_ALLOCATION => MemoryAllocationFailed
  | SYNC_ERROR_TIMEOUT => Timeout
  end.

Import Bridge Routing.
Local Open Scope bridge_scope.

(** ** Inputs of the scenarios *)

(** Subscriber "ue-1" attached to satellite "sat-A". *)
Definition scenario_ue : ue_context_t :=
  {| ue_id := "ue-1";
     current_satellite_id := "sat-A";
     target_satellite_id := "";
     ipv4_addr := 0;
     predicted_handover_time := double_zero;
     handover_in_progress := false;
     access_strategy := 0 |}.

(** A caller's event buffer element before any call writes it. *)
Definition blank_event : handover_event_t :=
  {| ev_ue_id := "";
     source_satellite := "";
     target_satellite := "";
     trigger_time := double_zero;
     completion_time := double_zero;
     ev_result := SYNC_SUCCESS;
     error_message := "" |}.

(** initialize; register "ue-1"; trigger its handover to "sat-B"; read the
    status; read back at most one recent event.  [t0] and [t1] are the clock
    readings of the first and third calls, [buffer] and [n0] the caller's
    event buffer and count before the last call. *)
Definition handover_scenario (T : double) (t0 t1 : Z)
    (buffer : list handover_event_t) (n0 : Z) :=
  r_init <- sync_algorithm_init t0 ;;
  r_reg <- sync_algorithm_register_ue (Some scenario_ue) ;;
  r_ho <- sync_algorithm_trigger_handover (Some "ue-1") (Some "sat-B") T t1 ;;
  st <- sync_algorithm_get_status (Some status_zero) ;;
  ev <- sync_algorithm_get_recent_handover_events (Some buffer) 1 (Some n0) ;;
  ret (r_init, r_reg, r_ho, st, ev).

(** The globals right after a first initialisation at clock reading [now]. *)
Definition fresh_globals (now : Z) : globals :=
  snd (sync_algorithm_init now initial_globals).

(** The globals of the scenario after its three calls: one subscriber, one
    handover. *)
Definition busy_globals : globals :=
  snd (handover_scenario double_five 1700000000 1700000001 [] 0 initial_globals).

(** An identifier of 64 bytes, one more than an entry can store. *)
Definition long_ue_id : string :=
  "ue-0123456789-0123456789-0123456789-0123456789-0123456789-012345".

(** The specification's condition for accepting a pair of parameters. *)
Definition both_positive (period precision : double) : bool :=
  double_is_positive period && double_is_positive precision.

(** One upsert of the identifier [id] when [malloc] succeeds. *)
Definition upsert_of (id : string) (gnb_ip gnb_port now : Z) : upsert_call :=
  {| up_ue_id := Some id;
     up_gnb_ip := gnb_ip;
     up_gnb_port := gnb_port;
     up_now := now;
     up_malloc_ok := true |}.

(** Every identifier passed by the calls fits the 63 bytes of an entry. *)
Definition ids_fit (cs : list upsert_call) : Prop :=
  Forall (fun c => forall id, up_ue_id c = Some id ->
                              (String.length id <= UE_ID_SIZE - 1)%nat) cs.

(** A table of two entries, "ue-1" at the head. *)
Definition sample_entry_1 : routing_entry_t :=
  {| re_ue_id := "ue-1"; gnb_ip := 167772161;
     gnb_port := 2152; last_update := 1700000000 |}.

Definition sample_entry_2 : routing_entry_t :=
  {| re_ue_id := "ue-2"; gnb_ip := 167772162;
     gnb_port := 2152; last_update := 1700000000 |}.

Definition sample_table : table := [sample_entry_1; sample_entry_2].

(** An unregister that meets a count of zero, then a register. *)
Definition floor_calls : list call :=
  [call_unregister_ue (Some "ue-1"); call_register_ue (Some scenario_ue)].

(** The same, followed by a second register and an unregister. *)
Definition sample_calls : list call :=
  floor_calls ++ [call_register_ue (Some scenario_ue);
                  call_unregister_ue (Some "ue-1")].

(** ** The whole interface of the bridge

    [call] lists the entry points that act on the globals; the remaining
    ones take or fill a buffer of the caller.  [api_call] lists all fourteen,
    each with the arguments and buffers it is given. *)

Inductive api_call : Type :=
| api_basic (c : call)
| api_get_status (status : option sync_algorithm_status_t)
| api_get_ue_context (ue_id : option string) (ue_context : option ue_context_t)
| api_get_satellite_info (satellite_id : option string)
    (satellite_info : option satellite_info_t)
| api_update_routing_table (ue_id : option string) (new_gnb_ip new_gnb_port : Z)
| api_get_recent_handover_events (events : option (list handover_event_t))
    (max_events : Z) (actual_count : option Z).

(** The result code of one call of the interface. *)
Definition api_exec (c : api_call) : M (option sync_result_t) :=
  match c with
  | api_basic c => exec c
  | api_get_status status =>
      out <- sync_algorithm_get_status status ;; ret (Some (fst out))
  | api_get_ue_context id ctx =>
      out <- sync_algorithm_get_ue_context id ctx ;; ret (Some (fst out))
  | api_get_satellite_info id info =>
      out <- sync_algorithm_get_satellite_info id info ;; ret (Some (fst out))
  | api_update_routing_table id ip port =>
      r <- sync_algorithm_update_routing_table id ip port ;; ret (Some r)
  | api_get_recent_handover_events events max_events actual_count =>
      out <- sync_algorithm_get_recent_handover_events events max_events
               actual_count ;;
      ret (Some (fst (fst out)))
  end.

Fixpoint api_run (cs : list api_call) : M (list (option sync_result_t)) :=
  match cs with
  | [] => ret []
  | c :: rest =>
      r <- api_exec c ;;
      rs <- api_run rest ;;
      ret (r :: rs)
  end.

(** What every state of the globals reached through the interface satisfies. *)
Record bridge_inv (g : globals) : Prop := mk_bridge_inv {
  inv_running : algorithm_running (g_status g) = true -> g_initialized g = true;
  inv_handovers :
    successful_handover_count (g_status g) = total_handover_count (g_status g);
  inv_ue_range : 0 <= total_ue_count (g_status g) < UINT32_MOD;
  inv_handover_range : 0 <= total_handover_count (g_status g) < UINT64_MOD;
  inv_active : active_handover_count (g_status g) = 0;
  inv_latency : average_handover_latency (g_status g) = double_zero
}.

(** Entry points whose body writes none of the globals. *)
Definition read_only (c : api_call) : bool :=
  match c with
  | api_basic (call_update_ue_position _ _ _ _) => true
  | api_basic (call_set_parameters _ _) => true
  | api_basic _ => false
  | _ => true
  end.

Definition is_trigger (c : call) : bool :=
  match c with call_trigger_handover _ _ _ _ => true | _ => false end.

Definition is_cleanup (c : call) : bool :=
  match c with call_cleanup => true | _ => false end.

(** Successful [trigger_handover] calls of a run. *)
Definition successful_triggers (log : list log_entry) : Z :=
  count_entries (fun e => is_trigger (le_call e) && succeeded e) log.


(** Two valid handover triggers around a refused one and a repeated
    initialisation. *)
Definition trigger_calls : list call :=
  [call_trigger_handover (Some "ue-1") (Some "sat-B") double_five 1;
   call_trigger_handover None (Some "sat-B") double_five 2;
   call_init 3;
   call_trigger_handover (Some "ue-2") (Some "sat-C") double_five 4].

(** ** test_sync_bridge.c *)

Definition is_success (r : sync_result_t) : bool :=
  match r with SYNC_SUCCESS => true | _ => false end.

(** The context [main] fills in: a zeroed structure, then the two [strcpy]. *)
Definition test_ue_context : ue_context_t :=
  {| ue_id := "test_ue_001";
     current_satellite_id := "starlink_1001";
     target_satellite_id := "";
     ipv4_addr := 0;
     predicted_handover_time := double_zero;
     handover_in_progress := false;
     access_strategy := 0 |}.

(** [main]: its exit code and the three status fields it prints when the
    status query succeeds.  [t_init] and [t_trigger] are the clock readings
    inside the bridge, [t_arg] the one [main] takes for [time (NULL) + 5];
    [status0] is the content of the local [status] before the query. *)
Definition main (t_init t_arg t_trigger : Z) (status0 : sync_algorithm_status_t)
  : M (Z * option (bool * Z * Z)) :=
  result <- sync_algorithm_init t_init ;;
  if negb (is_success result) then ret (1, None)
  else
    sync_algorithm_register_ue (Some test_ue_context) ;;
    sync_algorithm_start_periodic_update ;;
    sync_algorithm_trigger_handover (Some "test_ue_001") (Some "starlink_1002")
      (double_of_Z (t_arg + 5)) t_trigger ;;
    out <- sync_algorithm_get_status (Some status0) ;;
    sync_algorithm_cleanup ;;
    ret (0,
         if is_success (fst out)
         then option_map (fun s => (algorithm_running s, total_ue_count s,
                                    total_handover_count s)) (snd out)
         else None).

(** ** Reading the routing table *)

(** The entry at which the scan of [update_routing_entry] stops for an
    identifier: the first one whose identifier compares equal to it. *)
Definition scan (ue_id : string) (t : table) : option routing_entry_t :=
  find (fun e => strcmp (re_ue_id e) ue_id =? 0) t.

(** Every stored identifier fits the 64-byte field with its terminator. *)
Definition ids_bounded (t : table) : Prop :=
  Forall (fun e => (String.length (re_ue_id e) <= UE_ID_SIZE - 1)%nat) t.

(** The two entry points of the routing table. *)
Inductive table_call : Type :=
| table_upsert (c : upsert_call)
| table_cleanup.

Definition table_exec (c : table_call) (t : table) : table :=
  match c with
  | table_upsert u => do_upsert u t
  | table_cleanup => cleanup_routing_table t
  end.

Definition run_table_calls (cs : list table_call) (t : table) : table :=
  fold_left (fun acc c => table_exec c acc) cs t.

(** The result code of one upsert. *)
Definition upsert_result (c : upsert_call) (t : table) : sync_result_t :=
  fst (update_routing_entry (up_ue_id c) (up_gnb_ip c) (up_gnb_port c)
         (up_now c) (up_malloc_ok c) t).

(** The identifier of a call, when it has one, fits an entry. *)
Definition id_fits (c : upsert_call) : Prop :=
  forall id, up_ue_id c = Some id -> (String.length id <= UE_ID_SIZE - 1)%nat.

(** Calls for the witnesses: three subscribers, one of them twice. *)
Definition sample_upserts : list upsert_call :=
  [upsert_of "ue-1" 167772161 2152 1700000000;
   upsert_of "ue-2" 167772162 2152 1700000001;
   upsert_of "ue-1" 167772163 2152 1700000002;
   upsert_of "ue-3" 167772164 2152 1700000003].

(** * Properties *)

(** ** Strings *)

Lemma string_compare_refl (a : string) : String.compare a a = Eq.
Proof.
  pose proof (String.compare_antisym a a) as H.
  destruct (String.compare a a); simpl in H; congruence.
Qed.

Lemma strcmp_zero_iff (a b : string) : strcmp a b = 0 <-> a = b.
Proof.
  unfold strcmp. split.
  - destruct (String.compare a b) eqn:E; try discriminate.
    intros _. now apply String.compare_eq_iff.
  - intros ->. now rewrite string_compare_refl.
Qed.

Lemma strcmp_eqb (a b : string) : (strcmp a b =? 0) = String.eqb a b.
Proof.
  destruct (String.eqb_spec a b) as [->|N].
  - apply Z.eqb_eq. now apply strcmp_zero_iff.
  - apply Z.eqb_neq. intros H. now apply strcmp_zero_iff in H.
Qed.

Lemma strncpy_short (n : nat) (s : string) :
  (String.length s <= n)%nat -> strncpy n s = s.
Proof.
  revert n. induction s as [|c s IH]; intros [|n] H; simpl in *; trivial.
  - lia.
  - f_equal. apply IH. lia.
Qed.

Lemma strncpy_length (n : nat) (s : string) :
  (String.length (strncpy n s) <= n)%nat.
Proof.
  revert s. induction n as [|n IH]; intros [|c s]; simpl; try lia.
  specialize (IH s). lia.
Qed.

(** ** The bridge: one call *)

Ltac bridge_unfold :=
  unfold sync_algorithm_init, sync_algorithm_cleanup, sync_algorithm_register_ue,
    sync_algorithm_unregister_ue, sync_algorithm_trigger_handover,
    sync_algorithm_get_status, sync_algorithm_update_ue_position,
    sync_algorithm_start_periodic_update, sync_algorithm_stop_periodic_update,
    sync_algorithm_set_parameters, sync_algorithm_get_recent_handover_events,
    bind, read, ret, update_status, write_initialized, is_null in *.

Ltac bridge_simpl := bridge_unfold; cbn in *.

Lemma init_when_initialized (g : globals) (now : Z) :
  g_initialized g = true -> sync_algorithm_init now g = (SYNC_SUCCESS, g).
Proof. destruct g as [i s]; cbn. intros ->. reflexivity. Qed.

Lemma init_when_uninitialized (g : globals) (now : Z) :
  g_initialized g = false ->
  sync_algorithm_init now g =
  (SYNC_SUCCESS,
   {| g_initialized := true;
      g_status := set_last_update_time (double_of_Z now) status_zero |}).
Proof. destruct g as [i s]; cbn. intros ->. reflexivity. Qed.

Lemma cleanup_uninitializes (g : globals) :
  g_initialized (snd (sync_algorithm_cleanup g)) = false.
Proof. reflexivity. Qed.

Lemma init_initializes (g : globals) (now : Z) :
  g_initialized (snd (sync_algorithm_init now g)) = true.
Proof.
  destruct (g_initialized g) eqn:E.
  - now rewrite init_when_initialized.
  - now rewrite init_when_uninitialized.
Qed.

Lemma trigger_handover_when_initialized
    (g : globals) (id sat : string) (T : double) (now : Z) :
  g_initialized g = true ->
  sync_algorithm_trigger_handover (Some id) (Some sat) T now g =
  (SYNC_SUCCESS,
   {| g_initialized := true;
      g_status :=
        set_last_update_time (double_of_Z now)
          (set_successful_handover_count
             (wrap64 (successful_handover_count (g_status g) + 1))
             (set_total_handover_count
                (wrap64 (total_handover_count (g_status g) + 1))
                (g_status g))) |}).
Proof. destruct g as [i s]; cbn. intros ->. reflexivity. Qed.

(** ** Claims about the bridge *)

(** C1, as stated, fails.  After a first initialisation and no registration at
    all, "ue-404" was never registered, yet [trigger_handover] for it does not
    return [SYNC_ERROR_UE_NOT_FOUND] with both handover counters unchanged: it
    returns [SYNC_SUCCESS] and both counters go from 0 to 1. *)
Lemma trigger_handover_unknown_ue_counterexample :
  let cs := [call_init 1700000000] in
  let g := snd (run cs initial_globals) in
  let out := sync_algorithm_trigger_handover
               (Some "ue-404") (Some "sat-B") double_five 1700000001 g in
  never_registered "ue-404" cs = true
  /\ g_initialized g = true
  /\ ~ (fst out = SYNC_ERROR_UE_NOT_FOUND
        /\ total_handover_count (g_status (snd out))
           = total_handover_count (g_status g)
        /\ successful_handover_count (g_status (snd out))
           = successful_handover_count (g_status g)).
Proof.
  cbv zeta. split; [reflexivity|]. split; [reflexivity|].
  intros [H _]. vm_compute in H. discriminate H.
Qed.

(** C1, amended.  The bridge keeps no record of registered subscribers: on an
    initialised engine, [trigger_handover] with a non-null subscriber
    identifier and a non-null target satellite identifier returns
    [SYNC_SUCCESS] whether or not the subscriber was registered, adds one
    (modulo 2^64) to both the total and the successful handover counter, and
    leaves the subscriber count alone. *)
Theorem trigger_handover_counts_any_ue :
  forall (g : globals) (id sat : string) (T : double) (now : Z),
    g_initialized g = true ->
    let out := sync_algorithm_trigger_handover (Some id) (Some sat) T now g in
    fst out = SYNC_SUCCESS
    /\ total_handover_count (g_status (snd out))
       = wrap64 (total_handover_count (g_status g) + 1)
    /\ successful_handover_count (g_status (snd out))
       = wrap64 (successful_handover_count (g_status g) + 1)
    /\ total_ue_count (g_status (snd out)) = total_ue_count (g_status g)
    /\ g_initialized (snd out) = true.
Proof.
  intros g id sat T now H out. subst out.
  rewrite (trigger_handover_when_initialized g id sat T now H).
  cbn. repeat split.
Qed.

Lemma trigger_handover_counts_any_ue_witness :
  let g := fresh_globals 1700000000 in
  let out := sync_algorithm_trigger_handover
               (Some "ue-404") (Some "sat-B") double_five 1700000001 g in
  fst out = SYNC_SUCCESS
  /\ total_handover_count (g_status (snd out)) = 1
  /\ successful_handover_count (g_status (snd out)) = 1.
Proof.
  cbv zeta.
  destruct (trigger_handover_counts_any_ue (fresh_globals 1700000000)
              "ue-404" "sat-B" double_five 1700000001 eq_refl)
    as (Hr & Ht & Hs & _).
  split; [exact Hr|]. split; [rewrite Ht|rewrite Hs]; reflexivity.
Defined.

(** C2, as stated, fails in its last part.  In the scenario the three calls
    return [SYNC_SUCCESS] and both handover counters read 1, but the call that
    reads back at most one recent event does not hand back exactly one event
    for "ue-1" from "sat-A" to "sat-B": it hands back none. *)
Lemma handover_scenario_events_counterexample :
  let '(r_init, r_reg, r_ho, st, ev) :=
    fst (handover_scenario double_five 1700000000 1700000001 [blank_event] 0
           initial_globals) in
  ~ (r_init = SYNC_SUCCESS /\ r_reg = SYNC_SUCCESS /\ r_ho = SYNC_SUCCESS
     /\ option_map total_handover_count (snd st) = Some 1
     /\ option_map successful_handover_count (snd st) = Some 1
     /\ exists e : handover_event_t,
          events_read_back ev = [e]
          /\ ev_ue_id e = "ue-1"
          /\ source_satellite e = "sat-A"
          /\ target_satellite e = "sat-B").
Proof.
  cbn. intros (_ & _ & _ & _ & _ & e & H & _). discriminate H.
Qed.

(** C2, amended.  From the uninitialised state, initialize, register "ue-1" (on
    "sat-A") and trigger_handover ("ue-1", "sat-B", T) all return
    [SYNC_SUCCESS]; the status then read has total_handover_count = 1 and
    successful_handover_count = 1 (and total_ue_count = 1); the read of recent
    events with max 1 returns [SYNC_SUCCESS], sets the count to 0 and leaves the
    caller's buffer as it was, so no event is reported. *)
Theorem handover_scenario_result :
  forall (T : double) (t0 t1 : Z) (buffer : list handover_event_t) (n0 : Z),
    let '(r_init, r_reg, r_ho, st, ev) :=
      fst (handover_scenario T t0 t1 buffer n0 initial_globals) in
    r_init = SYNC_SUCCESS /\ r_reg = SYNC_SUCCESS /\ r_ho = SYNC_SUCCESS
    /\ fst st = SYNC_SUCCESS
    /\ option_map total_handover_count (snd st) = Some 1
    /\ option_map successful_handover_count (snd st) = Some 1
    /\ option_map total_ue_count (snd st) = Some 1
    /\ ev = (SYNC_SUCCESS, Some buffer, Some 0)
    /\ events_read_back ev = [].
Proof.
  intros T t0 t1 buffer n0. cbn. repeat split.
Qed.

(** C4.  When the engine is already initialised, [initialize] returns
    [SYNC_SUCCESS] and leaves the globals, hence every counter of the status,
    as they were; and from any state two [initialize] calls in a row both
    return [SYNC_SUCCESS], the second changing nothing. *)
Theorem sync_algorithm_init_idempotent :
  forall (g : globals) (now : Z),
    g_initialized g = true ->
    sync_algorithm_init now g = (SYNC_SUCCESS, g)
    /\ forall (g0 : globals) (first : Z),
         fst (sync_algorithm_init first g0) = SYNC_SUCCESS
         /\ sync_algorithm_init now (snd (sync_algorithm_init first g0))
            = (SYNC_SUCCESS, snd (sync_algorithm_init first g0)).
Proof.
  intros g now H. split.
  - now apply init_when_initialized.
  - intros g0 first. split.
    + destruct (g_initialized g0) eqn:E.
      * now rewrite init_when_initialized.
      * now rewrite init_when_uninitialized.
    + apply init_when_initialized, init_initializes.
Qed.

Lemma sync_algorithm_init_idempotent_witness :
  g_initialized busy_globals = true
  /\ total_ue_count (g_status busy_globals) = 1
  /\ total_handover_count (g_status busy_globals) = 1
  /\ sync_algorithm_init 1700000002 busy_globals = (SYNC_SUCCESS, busy_globals).
Proof.
  split; [reflexivity|]. split; [reflexivity|]. split; [reflexivity|].
  exact (proj1 (sync_algorithm_init_idempotent busy_globals 1700000002 eq_refl)).
Defined.

(** C5, as stated, fails.  On the never-initialised engine [register_ue] with a
    valid context fails, but the kind of its result is not NotInitialized. *)
Lemma uninitialized_result_kind_counterexample :
  kind_of_result
    (fst (sync_algorithm_register_ue (Some scenario_ue) initial_globals))
  <> NotInitialized.
Proof. cbn. discriminate. Qed.

(** C5, amended.  While the engine is not initialised (never initialised, or
    after cleanup), each of register, unregister, position update,
    trigger_handover, get_status and start/stop periodic update fails with
    [SYNC_ERROR_INVALID_PARAM], whatever its arguments, and changes neither
    the globals nor the caller's status buffer. *)
Theorem uninitialized_calls_invalid_param :
  forall g : globals,
    g_initialized g = false ->
    (forall ctx, sync_algorithm_register_ue ctx g = (SYNC_ERROR_INVALID_PARAM, g))
    /\ (forall id, sync_algorithm_unregister_ue id g = (SYNC_ERROR_INVALID_PARAM, g))
    /\ (forall id la lo al,
          sync_algorithm_update_ue_position id la lo al g
          = (SYNC_ERROR_INVALID_PARAM, g))
    /\ (forall id sat T now,
          sync_algorithm_trigger_handover id sat T now g
          = (SYNC_ERROR_INVALID_PARAM, g))
    /\ (forall status,
          sync_algorithm_get_status status g
          = (SYNC_ERROR_INVALID_PARAM, status, g))
    /\ sync_algorithm_start_periodic_update g = (SYNC_ERROR_INVALID_PARAM, g)
    /\ sync_algorithm_stop_periodic_update g = (SYNC_ERROR_INVALID_PARAM, g).
Proof.
  intros [i s]; cbn; intros ->.
  repeat split; intros; bridge_simpl;
    repeat match goal with
           | |- context [match ?x with Some _ => _ | None => _ end] => destruct x
           end; reflexivity.
Qed.

Lemma uninitialized_calls_invalid_param_witness :
  let g := snd (sync_algorithm_cleanup busy_globals) in
  sync_algorithm_register_ue (Some scenario_ue) initial_globals
  = (SYNC_ERROR_INVALID_PARAM, initial_globals)
  /\ sync_algorithm_trigger_handover (Some "ue-1") (Some "sat-B") double_five 7 g
     = (SYNC_ERROR_INVALID_PARAM, g)
  /\ sync_algorithm_start_periodic_update g = (SYNC_ERROR_INVALID_PARAM, g).
Proof.
  cbv zeta. split; [|split].
  - apply (uninitialized_calls_invalid_param initial_globals eq_refl).
  - apply (uninitialized_calls_invalid_param
             (snd (sync_algorithm_cleanup busy_globals)) eq_refl).
  - apply (uninitialized_calls_invalid_param
             (snd (sync_algorithm_cleanup busy_globals)) eq_refl).
Defined.

(** C6, as stated, fails.  -1.0 is not positive, yet set_parameters (-1.0, 0.01)
    does not return [SYNC_ERROR_INVALID_PARAM]. *)
Lemma set_parameters_negative_counterexample :
  both_positive double_minus_one double_one_hundredth = false
  /\ fst (sync_algorithm_set_parameters double_minus_one double_one_hundredth
            (fresh_globals 1700000000))
     <> SYNC_ERROR_INVALID_PARAM.
Proof. split; [reflexivity|]. cbn. discriminate. Qed.

(** C6, amended.  set_parameters performs no validation and stores nothing: for
    every pair of values, positive or not, and in every state of the engine
    it returns [SYNC_SUCCESS] and leaves the globals unchanged. *)
Theorem set_parameters_always_succeeds :
  forall (delta_t binary_search_precision : double) (g : globals),
    sync_algorithm_set_parameters delta_t binary_search_precision g
    = (SYNC_SUCCESS, g).
Proof. reflexivity. Qed.

(** C10.  After cleanup, initialize returns [SYNC_SUCCESS] and the status starts
    again from zero: total_ue_count, active_handover_count,
    total_handover_count and successful_handover_count are 0, the average
    latency is 0.0 and the running flag is false, whatever they were before
    cleanup; last_update_time is the clock reading of the call. *)
Theorem cleanup_then_init_resets_status :
  forall (g : globals) (now : Z),
    let out := sync_algorithm_init now (snd (sync_algorithm_cleanup g)) in
    fst out = SYNC_SUCCESS
    /\ g_initialized (snd out) = true
    /\ g_status (snd out) = set_last_update_time (double_of_Z now) status_zero
    /\ total_ue_count (g_status (snd out)) = 0
    /\ total_handover_count (g_status (snd out)) = 0
    /\ successful_handover_count (g_status (snd out)) = 0
    /\ active_handover_count (g_status (snd out)) = 0
    /\ algorithm_running (g_status (snd out)) = false.
Proof.
  intros g now out. subst out.
  rewrite (init_when_uninitialized _ now (cleanup_uninitializes g)).
  cbn. repeat split.
Qed.

(** ** The routing table *)

Lemma update_first_match_ids (id : string) (ip port now : Z) (t t' : table) :
  update_first_match id ip port now t = Some t' ->
  stored_ids t' = stored_ids t.
Proof.
  revert t'. induction t as [|e next IH]; intros t' H; simpl in H.
  - discriminate.
  - destruct (strcmp (re_ue_id e) id =? 0).
    + injection H as <-. reflexivity.
    + destruct (update_first_match id ip port now next) as [next'|];
        [|discriminate].
      injection H as <-. simpl. f_equal. now apply IH.
Qed.

Lemma update_first_match_none (id : string) (ip port now : Z) (t : table) :
  update_first_match id ip port now t = None <-> ~ In id (stored_ids t).
Proof.
  induction t as [|e next IH]; simpl.
  - tauto.
  - rewrite strcmp_eqb. destruct (String.eqb_spec (re_ue_id e) id) as [E|N].
    + split; [discriminate|]. intros H. exfalso. apply H. now left.
    + destruct (update_first_match id ip port now next).
      * split; [discriminate|]. intros H. exfalso.
        assert (In id (stored_ids next) -> False) as K by tauto.
        apply IH in K. discriminate.
      * split; [|reflexivity]. intros _ [E|I]; [contradiction|].
        now apply (proj1 IH).
Qed.

Lemma update_first_match_frame (id : string) (ip port now : Z) (t t' : table) :
  update_first_match id ip port now t = Some t' ->
  List.length t' = List.length t
  /\ (forall i e, nth_error t i = Some e -> re_ue_id e <> id ->
                  nth_error t' i = Some e)
  /\ (forall e', In e' t' ->
         In e' t \/ e' = {| re_ue_id := id; gnb_ip := ip;
                            gnb_port := port; last_update := now |}).
Proof.
  revert t'. induction t as [|e next IH]; intros t' H; simpl in H.
  - discriminate.
  - rewrite strcmp_eqb in H.
    destruct (String.eqb_spec (re_ue_id e) id) as [E|N].
    + injection H as <-. split; [reflexivity|]. split.
      * intros [|i] e0 Hn Hd; simpl in *; [|exact Hn].
        injection Hn as ->. contradiction.
      * intros e' [<-|I]; [right; now rewrite E|left; now right].
    + destruct (update_first_match id ip port now next) as [next'|];
        [|discriminate].
      injection H as <-.
      destruct (IH next' eq_refl) as (Hl & Hf & Hi).
      split; [simpl; now rewrite Hl|]. split.
      * intros [|i] e0 Hn Hd; simpl in *; [exact Hn|]. now apply Hf.
      * intros e' [<-|I]; [left; now left|].
        destruct (Hi e' I) as [J|J]; [left; now right|now right].
Qed.

(** The identifiers stored after one call: unchanged, or one more at the head. *)
Lemma do_upsert_ids (c : upsert_call) (t : table) :
  stored_ids (do_upsert c t) = stored_ids t
  \/ (exists id, up_ue_id c = Some id /\ ~ In id (stored_ids t)
                 /\ stored_ids (do_upsert c t)
                    = strncpy (UE_ID_SIZE - 1) id :: stored_ids t).
Proof.
  unfold do_upsert, update_routing_entry.
  destruct (up_ue_id c) as [id|]; [|now left].
  destruct (update_first_match id (up_gnb_ip c) (up_gnb_port c) (up_now c) t)
    as [t'|] eqn:E.
  - left. simpl. now apply update_first_match_ids in E.
  - destruct (up_malloc_ok c); [|now left].
    right. exists id. split; [reflexivity|]. split; [|reflexivity].
    now apply update_first_match_none in E.
Qed.

(** Identifiers that fit an entry keep the stored identifiers distinct. *)
Lemma run_upserts_fitting_ids_NoDup (cs : list upsert_call) (t : table) :
  ids_fit cs -> NoDup (stored_ids t) -> NoDup (stored_ids (run_upserts cs t)).
Proof.
  unfold run_upserts. revert t.
  induction cs as [|c cs IH]; intros t Hfit Hnd; simpl; [exact Hnd|].
  inversion Hfit as [|c' cs' Hc Hcs]; subst.
  apply IH; [exact Hcs|].
  destruct (do_upsert_ids c t) as [->|(id & Hid & Hnot & ->)]; [exact Hnd|].
  rewrite (strncpy_short _ _ (Hc id Hid)). now constructor.
Qed.

Lemma entries_for_absent (id : string) (t : table) :
  ~ In id (stored_ids t) -> entries_for id t = 0%nat.
Proof.
  unfold entries_for. induction t as [|e t IH]; intros H; cbn; [reflexivity|].
  destruct (String.eqb_spec (re_ue_id e) id) as [E|N].
  - exfalso. apply H. now left.
  - apply IH. intros I. apply H. now right.
Qed.

Lemma entries_for_present (id : string) (t : table) :
  NoDup (stored_ids t) -> In id (stored_ids t) -> entries_for id t = 1%nat.
Proof.
  induction t as [|e t IH]; intros Hnd Hin; [contradiction|].
  cbn in Hnd. inversion Hnd as [|x l Hx Hl]; subst.
  unfold entries_for in *. cbn [filter].
  destruct (String.eqb_spec (re_ue_id e) id) as [E|N].
  - cbn [List.length]. f_equal. apply entries_for_absent. now rewrite <- E.
  - destruct Hin as [E|I]; [contradiction|]. now apply IH.
Qed.

(** A stored identifier stays stored. *)
Lemma do_upsert_keeps_ids (c : upsert_call) (t : table) (id : string) :
  In id (stored_ids t) -> In id (stored_ids (do_upsert c t)).
Proof.
  intros H. destruct (do_upsert_ids c t) as [->|(s & _ & _ & ->)];
    [exact H|now right].
Qed.

(** A successful upsert of an identifier that fits stores it. *)
Lemma do_upsert_stores_id (id : string) (ip port now : Z) (t : table) :
  (String.length id <= UE_ID_SIZE - 1)%nat ->
  In id (stored_ids (do_upsert (upsert_of id ip port now) t)).
Proof.
  intros Hfit. unfold do_upsert, upsert_of.
  cbn [up_ue_id up_gnb_ip up_gnb_port up_now up_malloc_ok].
  unfold update_routing_entry.
  destruct (update_first_match id ip port now t) as [t'|] eqn:E; cbn [snd].
  - rewrite (update_first_match_ids _ _ _ _ _ _ E).
    destruct (in_dec string_dec id (stored_ids t)) as [I|N]; [exact I|].
    apply update_first_match_none with (ip := ip) (port := port) (now := now) in N.
    congruence.
  - unfold stored_ids, new_entry. cbn [map re_ue_id]. left.
    now apply strncpy_short.
Qed.

Lemma run_upserts_keeps_ids (cs : list upsert_call) (t : table) (id : string) :
  In id (stored_ids t) -> In id (stored_ids (run_upserts cs t)).
Proof.
  unfold run_upserts. revert t.
  induction cs as [|c cs IH]; intros t H; cbn; [exact H|].
  apply IH. now apply do_upsert_keeps_ids.
Qed.

(** With identifiers that fit, an identifier upserted somewhere in a sequence
    of calls, once or several times, ends with exactly one entry. *)
Lemma run_upserts_fitting_one_entry (cs : list upsert_call) (t : table)
    (id : string) (ip port now : Z) :
  ids_fit cs -> NoDup (stored_ids t) ->
  In (upsert_of id ip port now) cs ->
  entries_for id (run_upserts cs t) = 1%nat.
Proof.
  intros Hfit Hnd Hin. apply entries_for_present.
  - now apply run_upserts_fitting_ids_NoDup.
  - clear Hnd. revert t. unfold run_upserts.
    induction cs as [|c cs IH]; intros t; [contradiction|].
    inversion Hfit as [|c' cs' Hc Hcs]; subst. cbn [fold_left].
    destruct Hin as [->|I].
    + apply (run_upserts_keeps_ids cs). apply do_upsert_stores_id.
      now apply Hc.
    + now apply IH.
Qed.

(** ** Claims about the routing table *)

(** C3 at its failing input.  Two upserts of the same 64-byte identifier leave
    two entries in the table, both stored under the same 63-byte identifier:
    the scan compares the stored, cut identifier with the full argument, never
    finds it, and a second entry is added.  The table then holds two entries
    with the same subscriber identifier, and none under the identifier that
    was passed. *)
Theorem upsert_long_id_twice_duplicates :
  let c := upsert_of long_ue_id 167772161 2152 1700000000 in
  let t := run_upserts [c; c] initial_table in
  String.length long_ue_id = 64%nat
  /\ stored_ids t = [strncpy 63 long_ue_id; strncpy 63 long_ue_id]
  /\ ~ NoDup (stored_ids t)
  /\ entries_for (strncpy 63 long_ue_id) t = 2%nat
  /\ entries_for long_ue_id t = 0%nat.
Proof.
  cbv zeta. split; [reflexivity|]. split; [reflexivity|].
  split; [|split; reflexivity].
  intros H. change (stored_ids _) with [strncpy 63 long_ue_id; strncpy 63 long_ue_id] in H.
  inversion H as [|x l Hin _]; subst. apply Hin. now left.
Qed.

(** C7, as stated, fails.  With the empty identifier (a pointer to a string of
    no bytes) upsert on the empty table does not return
    [SYNC_ERROR_INVALID_PARAM] with the table unchanged: it returns
    [SYNC_SUCCESS] and adds an entry. *)
Lemma upsert_empty_id_counterexample :
  let out := update_routing_entry (Some "") 167772161 2152 1700000000 true
               initial_table in
  ~ (fst out = SYNC_ERROR_INVALID_PARAM /\ snd out = initial_table).
Proof. cbn. intros [H _]. discriminate H. Qed.

(** C7, amended.  upsert returns [SYNC_ERROR_INVALID_PARAM] exactly when the
    subscriber identifier is absent (a null pointer), and then leaves the
    routing table unchanged; an identifier that is present, the empty string
    included, is looked up and stored like any other. *)
Theorem upsert_null_id_invalid_param :
  forall (gnb_ip gnb_port now : Z) (malloc_ok : bool) (t : table),
    update_routing_entry None gnb_ip gnb_port now malloc_ok t
    = (SYNC_ERROR_INVALID_PARAM, t)
    /\ (forall id : string,
          fst (update_routing_entry (Some id) gnb_ip gnb_port now malloc_ok t)
          <> SYNC_ERROR_INVALID_PARAM)
    /\ update_routing_entry (Some "") gnb_ip gnb_port now true initial_table
       = (SYNC_SUCCESS, [new_entry "" gnb_ip gnb_port now]).
Proof.
  intros ip port now ok t. split; [reflexivity|]. split; [|reflexivity].
  intros id. unfold update_routing_entry.
  destruct (update_first_match id ip port now t); [cbn; discriminate|].
  destruct ok; cbn; discriminate.
Qed.

(** C9.  One call upsert (id, e) leaves every entry whose identifier differs from
    id as it was: such an entry at position i is found again, with its
    address, port and last-update time, at the same distance from the end of
    the list.  The table keeps its length or grows by one, and an entry of
    the new table that is not an entry of the old one carries the address,
    port and clock reading of the call under the identifier id (overwritten)
    or its first 63 bytes (created). *)
Theorem update_routing_entry_frame :
  forall (t : table) (id : option string) (gnb_ip gnb_port now : Z)
         (malloc_ok : bool) (i : nat) (e : routing_entry_t),
    nth_error t i = Some e ->
    Some (re_ue_id e) <> id ->
    let t' := snd (update_routing_entry id gnb_ip gnb_port now malloc_ok t) in
    nth_error t' (i + (List.length t' - List.length t)) = Some e
    /\ (List.length t <= List.length t' <= List.length t + 1)%nat
    /\ (forall e' : routing_entry_t,
          In e' t' ->
          In e' t
          \/ (gnb_ip = Routing.gnb_ip e' /\ gnb_port = Routing.gnb_port e'
              /\ now = last_update e'
              /\ exists s, id = Some s
                           /\ (re_ue_id e' = s
                               \/ re_ue_id e' = strncpy (UE_ID_SIZE - 1) s))).
Proof.
  intros t id ip port now ok i e Hn Hd t'. subst t'.
  unfold update_routing_entry. destruct id as [s|].
  - destruct (update_first_match s ip port now t) as [u|] eqn:E.
    + destruct (update_first_match_frame s ip port now t u E) as (Hl & Hf & Hi).
      cbn [snd]. rewrite Hl, Nat.sub_diag, Nat.add_0_r.
      split; [apply Hf; [exact Hn|congruence]|]. split; [lia|].
      intros e' I. destruct (Hi e' I) as [J| ->]; [now left|right].
      cbn. repeat split. exists s. split; [reflexivity|now left].
    + destruct ok; cbn [snd].
      * cbn [List.length]. replace (S (List.length t) - List.length t)%nat with 1%nat by lia.
        rewrite Nat.add_1_r. split; [exact Hn|]. split; [lia|].
        intros e' [<-|I]; [right|now left].
        cbn. repeat split. exists s. split; [reflexivity|now right].
      * rewrite Nat.sub_diag, Nat.add_0_r. split; [exact Hn|]. split; [lia|].
        intros e' I. now left.
  - cbn [snd]. rewrite Nat.sub_diag, Nat.add_0_r.
    split; [exact Hn|]. split; [lia|]. intros e' I. now left.
Qed.

Lemma update_routing_entry_frame_witness :
  nth_error (snd (update_routing_entry (Some "ue-1") 167772170 2153 1700000009
                    true sample_table)) 1 = Some sample_entry_2
  /\ nth_error (snd (update_routing_entry (Some "ue-3") 167772170 2153
                       1700000009 true sample_table)) 2 = Some sample_entry_2.
Proof.
  split.
  - refine (proj1 (update_routing_entry_frame sample_table (Some "ue-1")
                     167772170 2153 1700000009 true 1%nat sample_entry_2
                     eq_refl _)).
    intros H. discriminate H.
  - refine (proj1 (update_routing_entry_frame sample_table (Some "ue-3")
                     167772170 2153 1700000009 true 1%nat sample_entry_2
                     eq_refl _)).
    intros H. discriminate H.
Defined.

(** ** The subscriber count over sequences of calls *)

Lemma run_cons (c : call) (rest : list call) (g : globals) :
  run (c :: rest) g =
  ({| le_call := c; le_before := g; le_result := fst (exec c g) |}
     :: fst (run rest (snd (exec c g))),
   snd (run rest (snd (exec c g)))).
Proof.
  cbn [run]. unfold bind, read, ret.
  destruct (exec c g) as [r g1]. cbn [fst snd].
  now destruct (run rest g1).
Qed.

Lemma count_entries_cons (p : log_entry -> bool) (e : log_entry)
    (log : list log_entry) :
  count_entries p (e :: log) = (if p e then 1 else 0) + count_entries p log.
Proof.
  unfold count_entries. cbn [filter]. destruct (p e); cbn [List.length]; lia.
Qed.

Lemma count_entries_nonneg (p : log_entry -> bool) (log : list log_entry) :
  0 <= count_entries p log.
Proof. unfold count_entries. lia. Qed.

Lemma wrap32_small (x : Z) : is_uint32 x -> wrap32 x = x.
Proof. intros H. now apply Z.mod_small. Qed.

Lemma wrap32_range (x : Z) : is_uint32 (wrap32 x).
Proof. apply Z.mod_pos_bound. reflexivity. Qed.

Lemma wrap32_add_l (x y : Z) : wrap32 (wrap32 x + y) = wrap32 (x + y).
Proof. apply Z.add_mod_idemp_l. discriminate. Qed.

Lemma register_when_initialized (g : globals) (ctx : ue_context_t) :
  g_initialized g = true ->
  sync_algorithm_register_ue (Some ctx) g =
  (SYNC_SUCCESS,
   {| g_initialized := true;
      g_status := set_total_ue_count (wrap32 (total_ue_count (g_status g) + 1))
                    (g_status g) |}).
Proof. destruct g as [i s]; cbn. intros ->. reflexivity. Qed.

Lemma unregister_when_initialized (g : globals) (id : string) :
  g_initialized g = true ->
  sync_algorithm_unregister_ue (Some id) g =
  (SYNC_SUCCESS,
   {| g_initialized := true;
      g_status :=
        if total_ue_count (g_status g) >? 0
        then set_total_ue_count (wrap32 (total_ue_count (g_status g) - 1))
               (g_status g)
        else g_status g |}).
Proof. destruct g as [i s]; cbn. intros ->. reflexivity. Qed.

(** [unregister_ue] on an initialised engine: one less, but not below zero. *)
Lemma unregister_floor (g : globals) (id : string) :
  g_initialized g = true ->
  is_uint32 (total_ue_count (g_status g)) ->
  total_ue_count (g_status (snd (sync_algorithm_unregister_ue (Some id) g)))
  = Z.max 0 (total_ue_count (g_status g) - 1).
Proof.
  intros Hi Hr. rewrite (unregister_when_initialized g id Hi). cbn [snd g_status].
  unfold is_uint32 in Hr.
  destruct (Z.gtb_spec (total_ue_count (g_status g)) 0) as [P|P].
  - cbn. rewrite wrap32_small by (unfold is_uint32; lia). lia.
  - lia.
Qed.

Lemma exec_register (g : globals) (ctx : ue_context_t) :
  g_initialized g = true ->
  exec (call_register_ue (Some ctx)) g =
  (Some SYNC_SUCCESS,
   {| g_initialized := true;
      g_status := set_total_ue_count (wrap32 (total_ue_count (g_status g) + 1))
                    (g_status g) |}).
Proof.
  intros H. cbn [exec]. unfold bind at 1.
  now rewrite (register_when_initialized g ctx H).
Qed.

Lemma exec_register_null (g : globals) :
  exec (call_register_ue None) g = (Some SYNC_ERROR_INVALID_PARAM, g).
Proof. reflexivity. Qed.

Lemma exec_unregister (g : globals) (id : string) :
  g_initialized g = true ->
  exec (call_unregister_ue (Some id)) g =
  (Some SYNC_SUCCESS,
   {| g_initialized := true;
      g_status :=
        if total_ue_count (g_status g) >? 0
        then set_total_ue_count (wrap32 (total_ue_count (g_status g) - 1))
               (g_status g)
        else g_status g |}).
Proof.
  intros H. cbn [exec]. unfold bind at 1.
  now rewrite (unregister_when_initialized g id H).
Qed.

Lemma exec_unregister_null (g : globals) :
  exec (call_unregister_ue None) g = (Some SYNC_ERROR_INVALID_PARAM, g).
Proof. reflexivity. Qed.

Ltac unfold_counts :=
  unfold successful_registers, successful_unregisters, floored_unregisters;
  rewrite !count_entries_cons;
  cbn [le_call le_result le_before is_register is_unregister succeeded andb];
  repeat match goal with
         | |- context [count_entries ?p ?l] =>
             first [ progress fold (successful_registers l)
                   | progress fold (successful_unregisters l)
                   | progress fold (floored_unregisters l) ]
         end.

(** The invariant carried along a run of register and unregister calls. *)
Lemma run_ue_calls_count (cs : list call) :
  forall g : globals,
    forallb is_ue_call cs = true ->
    g_initialized g = true ->
    is_uint32 (total_ue_count (g_status g)) ->
    let log := fst (run cs g) in
    let n0 := total_ue_count (g_status g) in
    let n' := total_ue_count (g_status (snd (run cs g))) in
    Forall (fun e => is_uint32 (total_ue_count (g_status (le_before e)))) log
    /\ is_uint32 n'
    /\ n' = wrap32 (n0 + successful_registers log
                    - successful_unregisters log + floored_unregisters log)
    /\ (n0 + successful_registers log < UINT32_MOD ->
        n' = n0 + successful_registers log
             - successful_unregisters log + floored_unregisters log).
Proof.
  induction cs as [|c rest IH]; intros g Hue Hi Hr; cbv zeta.
  - cbn. unfold successful_registers, successful_unregisters,
      floored_unregisters, count_entries. cbn.
    rewrite !Z.add_0_r, Z.sub_0_r. rewrite wrap32_small by exact Hr.
    repeat split; trivial; apply Hr.
  - cbn [forallb] in Hue. apply andb_prop in Hue as [Hc Hrest].
    rewrite run_cons.
    destruct c as [ | |[ctx|]|[id|]| | | | | ]; try discriminate Hc.
    + (* register, valid context *)
      rewrite (exec_register g ctx Hi). cbn [fst snd].
      set (g1 := {| g_initialized := true; g_status := _ |}).
      destruct (IH g1 Hrest eq_refl (wrap32_range _)) as (Hf & Hn & Hm & Hx).
      cbn [g1 g_status total_ue_count set_total_ue_count] in Hm, Hx.
      pose proof (count_entries_nonneg
        (fun e => is_register (le_call e) && succeeded e) (fst (run rest g1)))
        as HR.
      fold (successful_registers (fst (run rest g1))) in HR.
      unfold_counts.
      split; [constructor; [exact Hr|exact Hf]|]. split; [exact Hn|]. split.
      * rewrite Hm.
        match goal with
        | |- wrap32 (wrap32 ?a + ?r - ?u + ?f) = _ =>
            replace (wrap32 a + r - u + f) with (wrap32 a + (r - u + f)) by lia
        end.
        rewrite wrap32_add_l. f_equal. lia.
      * intros Hlt. unfold is_uint32 in Hr.
        rewrite wrap32_small in Hx by (unfold is_uint32; lia).
        rewrite Hx by lia. lia.
    + (* register, null context *)
      rewrite exec_register_null. cbn [fst snd].
      destruct (IH g Hrest Hi Hr) as (Hf & Hn & Hm & Hx).
      unfold_counts.
      split; [constructor; [exact Hr|exact Hf]|]. split; [exact Hn|].
      rewrite !Z.add_0_l. split; [exact Hm|exact Hx].
    + (* unregister, valid identifier *)
      rewrite (exec_unregister g id Hi). cbn [fst snd].
      set (g1 := {| g_initialized := true; g_status := _ |}).
      assert (Hr1 : is_uint32 (total_ue_count (g_status g1))).
      { subst g1. cbn [g_status].
        destruct (total_ue_count (g_status g) >? 0); [apply wrap32_range|exact Hr]. }
      destruct (IH g1 Hrest eq_refl Hr1) as (Hf & Hn & Hm & Hx).
      unfold_counts.
      split; [constructor; [exact Hr|exact Hf]|]. split; [exact Hn|].
      unfold is_uint32 in Hr.
      assert (Hn1 : total_ue_count (g_status g1)
                    = total_ue_count (g_status g)
                      - 1 + (if total_ue_count (g_status g) =? 0 then 1 else 0)).
      { subst g1. cbn [g_status].
        destruct (Z.gtb_spec (total_ue_count (g_status g)) 0) as [P|P];
          destruct (Z.eqb_spec (total_ue_count (g_status g)) 0) as [Q|Q];
          try lia.
        cbn. rewrite wrap32_small by (unfold is_uint32; lia). lia. }
      rewrite Hn1 in Hm, Hx. split.
      * rewrite Hm. f_equal. lia.
      * intros Hlt. rewrite Hx.
        -- lia.
        -- destruct (total_ue_count (g_status g) =? 0); lia.
    + (* unregister, null identifier *)
      rewrite exec_unregister_null. cbn [fst snd].
      destruct (IH g Hrest Hi Hr) as (Hf & Hn & Hm & Hx).
      unfold_counts.
      split; [constructor; [exact Hr|exact Hf]|]. split; [exact Hn|].
      rewrite !Z.add_0_l. split; [exact Hm|exact Hx].
Qed.

(** C8, as stated, fails in its last part.  After initialisation, an unregister
    (which meets a count of zero and succeeds) followed by a register leaves
    total_ue_count = 1, while the net of successful register minus unregister
    calls is 1 - 1 = 0. *)
Lemma total_ue_count_net_counterexample :
  let out := run floor_calls (fresh_globals 1700000000) in
  forallb is_ue_call floor_calls = true
  /\ forallb succeeded (fst out) = true
  /\ successful_registers (fst out) - successful_unregisters (fst out) = 0
  /\ total_ue_count (g_status (snd out)) = 1
  /\ total_ue_count (g_status (snd out))
     <> successful_registers (fst out) - successful_unregisters (fst out).
Proof.
  cbv zeta. repeat split; try reflexivity.
  vm_compute. discriminate.
Qed.

(** C8, amended.  Along every sequence of register and unregister calls on an
    initialised engine, total_ue_count is never negative (it stays a 32-bit
    unsigned value before every call and at the end); unregister takes one
    off the count only when it is positive (the new count is max (0, n - 1));
    and the final count is the initial count plus the successful registers
    minus the successful unregisters that met a positive count, modulo 2^32.
    When the registers do not overflow 32 bits this is: initial + registers
    - unregisters + unregisters that met zero; so the count is at least the
    net of register minus unregister, and equal to it when no unregister met
    a count of zero. *)
Theorem total_ue_count_floored_net :
  forall (cs : list call) (g : globals),
    forallb is_ue_call cs = true ->
    g_initialized g = true ->
    is_uint32 (total_ue_count (g_status g)) ->
    let log := fst (run cs g) in
    let n0 := total_ue_count (g_status g) in
    let n' := total_ue_count (g_status (snd (run cs g))) in
    let net := successful_registers log - successful_unregisters log in
    Forall (fun e => 0 <= total_ue_count (g_status (le_before e)) < UINT32_MOD) log
    /\ 0 <= n' < UINT32_MOD
    /\ (forall id : string,
          total_ue_count
            (g_status (snd (sync_algorithm_unregister_ue (Some id) g)))
          = Z.max 0 (n0 - 1))
    /\ n' = wrap32 (n0 + net + floored_unregisters log)
    /\ (n0 + successful_registers log < UINT32_MOD ->
        n' = n0 + net + floored_unregisters log
        /\ n0 + net <= n'
        /\ (floored_unregisters log = 0 -> n' = n0 + net)).
Proof.
  intros cs g Hue Hi Hr log n0 n' net.
  destruct (run_ue_calls_count cs g Hue Hi Hr) as (Hf & Hn & Hm & Hx).
  fold log in Hf, Hm, Hx. fold n0 in Hm, Hx. fold n' in Hn, Hm, Hx.
  split; [exact Hf|]. split; [exact Hn|].
  split; [intros id; now apply unregister_floor|].
  assert (E : n0 + net + floored_unregisters log
              = n0 + successful_registers log - successful_unregisters log
                + floored_unregisters log) by (unfold net; lia).
  rewrite E. split; [exact Hm|].
  intros Hlt. specialize (Hx Hlt).
  pose proof (count_entries_nonneg
    (fun e => is_unregister (le_call e) && succeeded e
              && (total_ue_count (g_status (le_before e)) =? 0)) log) as HF.
  fold (floored_unregisters log) in HF.
  split; [exact Hx|]. unfold net. split; lia.
Qed.

Lemma total_ue_count_floored_net_witness :
  let out := run sample_calls (fresh_globals 1700000000) in
  successful_registers (fst out) = 2
  /\ successful_unregisters (fst out) = 2
  /\ floored_unregisters (fst out) = 1
  /\ total_ue_count (g_status (snd out)) = 0 + (2 - 2) + 1.
Proof.
  cbv zeta. split; [reflexivity|]. split; [reflexivity|]. split; [reflexivity|].
  assert (R : is_uint32 (total_ue_count (g_status (fresh_globals 1700000000)))).
  { split; [discriminate|reflexivity]. }
  destruct (total_ue_count_floored_net sample_calls (fresh_globals 1700000000)
              eq_refl eq_refl R) as (_ & _ & _ & _ & H).
  destruct H as (H & _); [reflexivity|]. exact H.
Defined.

(** * Further properties of the bridge *)

(** ** Single calls *)

(** get_status never changes the globals.  It succeeds exactly when the
    caller's buffer is not null and the engine is initialised; the buffer
    then holds the current status, field for field, and otherwise keeps its
    content. *)
Theorem get_status_snapshot :
  forall (g : globals) (status : option sync_algorithm_status_t),
    let out := sync_algorithm_get_status status g in
    snd out = g
    /\ (fst (fst out) = SYNC_SUCCESS
        <-> (status <> None /\ g_initialized g = true))
    /\ (fst (fst out) = SYNC_SUCCESS -> snd (fst out) = Some (g_status g))
    /\ (fst (fst out) <> SYNC_SUCCESS ->
        fst out = (SYNC_ERROR_INVALID_PARAM, status)).
Proof.
  intros [i s] [old|]; destruct i; cbn; repeat split;
    try discriminate; try congruence; try tauto;
    try (intros [H1 H2]; congruence).
Qed.

(** On an initialised engine start_periodic_update and stop_periodic_update
    return [SYNC_SUCCESS] and set the running flag to true and to false; they
    change no other field of the status.  Each is idempotent, and the later
    of two calls decides the flag. *)
Theorem periodic_update_toggle :
  forall g : globals,
    g_initialized g = true ->
    let started := sync_algorithm_start_periodic_update g in
    let stopped := sync_algorithm_stop_periodic_update g in
    started = (SYNC_SUCCESS,
               {| g_initialized := true;
                  g_status := set_algorithm_running true (g_status g) |})
    /\ stopped = (SYNC_SUCCESS,
                  {| g_initialized := true;
                     g_status := set_algorithm_running false (g_status g) |})
    /\ sync_algorithm_start_periodic_update (snd started) = started
    /\ sync_algorithm_stop_periodic_update (snd stopped) = stopped
    /\ sync_algorithm_stop_periodic_update (snd started) = stopped
    /\ sync_algorithm_start_periodic_update (snd stopped) = started.
Proof.
  intros [i s]; cbn; intros ->. repeat split.
Qed.

Lemma periodic_update_toggle_witness :
  algorithm_running
    (g_status (snd (sync_algorithm_start_periodic_update busy_globals))) = true
  /\ total_handover_count
       (g_status (snd (sync_algorithm_start_periodic_update busy_globals))) = 1
  /\ algorithm_running
       (g_status
          (snd (sync_algorithm_stop_periodic_update
                  (snd (sync_algorithm_start_periodic_update busy_globals)))))
     = false.
Proof.
  destruct (periodic_update_toggle busy_globals eq_refl)
    as (Hs & Hp & _ & _ & Hsp & _).
  rewrite Hsp, Hp, Hs. repeat split.
Defined.

(** cleanup clears only the initialised flag and the running flag: every
    counter of the status and its last-update time stay as they were.
    A second cleanup changes nothing, and after cleanup the status can no
    longer be read. *)
Theorem cleanup_keeps_counters :
  forall g : globals,
    let g' := snd (sync_algorithm_cleanup g) in
    g_initialized g' = false
    /\ g_status g' = set_algorithm_running false (g_status g)
    /\ total_ue_count (g_status g') = total_ue_count (g_status g)
    /\ total_handover_count (g_status g') = total_handover_count (g_status g)
    /\ successful_handover_count (g_status g')
       = successful_handover_count (g_status g)
    /\ last_update_time (g_status g') = last_update_time (g_status g)
    /\ snd (sync_algorithm_cleanup g') = g'
    /\ forall status,
         fst (sync_algorithm_get_status status g')
         = (SYNC_ERROR_INVALID_PARAM, status).
Proof.
  intros [i s]. cbn. repeat split. intros [old|]; reflexivity.
Qed.

(** A null argument is refused in every state, initialised or not: register
    with a null context, unregister and position update with a null
    identifier, trigger_handover with a null subscriber or a null target, and
    get_status with a null buffer return [SYNC_ERROR_INVALID_PARAM] and leave
    the globals unchanged. *)
Theorem null_arguments_invalid_param :
  forall g : globals,
    sync_algorithm_register_ue None g = (SYNC_ERROR_INVALID_PARAM, g)
    /\ sync_algorithm_unregister_ue None g = (SYNC_ERROR_INVALID_PARAM, g)
    /\ (forall la lo al,
          sync_algorithm_update_ue_position None la lo al g
          = (SYNC_ERROR_INVALID_PARAM, g))
    /\ (forall sat T now,
          sync_algorithm_trigger_handover None sat T now g
          = (SYNC_ERROR_INVALID_PARAM, g))
    /\ (forall id T now,
          sync_algorithm_trigger_handover id None T now g
          = (SYNC_ERROR_INVALID_PARAM, g))
    /\ sync_algorithm_get_status None g = (SYNC_ERROR_INVALID_PARAM, None, g).
Proof.
  intros g. repeat split; try reflexivity.
  intros [id|] T now; reflexivity.
Qed.

(** Whatever the call, its arguments and the state, an entry point of the
    bridge returns [SYNC_SUCCESS] or [SYNC_ERROR_INVALID_PARAM] (cleanup
    returns nothing): none of the six other codes is ever produced. *)
Theorem bridge_result_codes :
  forall (c : api_call) (g : globals),
    match fst (api_exec c g) with
    | None => c = api_basic call_cleanup
    | Some r => r = SYNC_SUCCESS \/ r = SYNC_ERROR_INVALID_PARAM
    end.
Proof.
  intros c [i s].
  destruct c as [b|st|id ctx|id info|id ip port|ev mx ac].
  - destruct b as [now| |[ctx|]|[id|]|[id|] [sat|] T now|[id|] la lo al| | |dt pr];
      destruct i; cbn; auto.
  - destruct st, i; cbn; auto.
  - cbn; auto.
  - cbn; auto.
  - cbn; auto.
  - cbn; auto.
Qed.


(** What each successful call may change.  On an initialised engine, register
    and unregister change at most total_ue_count (the status before and the
    status after agree once that field is set to a common value);
    trigger_handover changes at most the two handover counters and the
    last-update time; a position update changes nothing; none of them clears
    the initialised flag. *)
Theorem bridge_frame :
  forall (g : globals) (ctx : ue_context_t) (id sat : string)
         (T la lo al : double) (now : Z),
    g_initialized g = true ->
    (forall n, set_total_ue_count n
                 (g_status (snd (sync_algorithm_register_ue (Some ctx) g)))
               = set_total_ue_count n (g_status g))
    /\ (forall n, set_total_ue_count n
                    (g_status (snd (sync_algorithm_unregister_ue (Some id) g)))
                  = set_total_ue_count n (g_status g))
    /\ (forall n m t,
          set_total_handover_count n
            (set_successful_handover_count m
               (set_last_update_time t
                  (g_status
                     (snd (sync_algorithm_trigger_handover (Some id) (Some sat)
                             T now g)))))
          = set_total_handover_count n
              (set_successful_handover_count m
                 (set_last_update_time t (g_status g))))
    /\ sync_algorithm_update_ue_position (Some id) la lo al g = (SYNC_SUCCESS, g)
    /\ g_initialized (snd (sync_algorithm_register_ue (Some ctx) g)) = true
    /\ g_initialized (snd (sync_algorithm_unregister_ue (Some id) g)) = true
    /\ g_initialized
         (snd (sync_algorithm_trigger_handover (Some id) (Some sat) T now g))
       = true.
Proof.
  intros [i s] ctx id sat T la lo al now; cbn; intros ->. cbn.
  repeat split.
  intros n. destruct (total_ue_count s >? 0); reflexivity.
Qed.

Lemma bridge_frame_witness :
  total_handover_count
    (g_status (snd (sync_algorithm_register_ue (Some scenario_ue) busy_globals)))
  = 1
  /\ sync_algorithm_update_ue_position (Some "ue-1") double_five double_five
       double_zero busy_globals = (SYNC_SUCCESS, busy_globals).
Proof.
  destruct (bridge_frame busy_globals scenario_ue "ue-1" "sat-B" double_five
              double_five double_five double_zero 0 eq_refl)
    as (Hr & _ & _ & Hp & _).
  split; [|exact Hp].
  pose proof (f_equal total_handover_count (Hr 0)) as H. exact H.
Defined.



(** ** Sequences of calls *)

Lemma api_run_cons (c : api_call) (rest : list api_call) (g : globals) :
  api_run (c :: rest) g =
  (fst (api_exec c g) :: fst (api_run rest (snd (api_exec c g))),
   snd (api_run rest (snd (api_exec c g)))).
Proof.
  cbn [api_run]. unfold bind, ret.
  destruct (api_exec c g) as [r g1]. cbn [fst snd].
  now destruct (api_run rest g1).
Qed.

Lemma read_only_exec (c : api_call) (g : globals) :
  read_only c = true -> snd (api_exec c g) = g.
Proof.
  destruct g as [i s].
  destruct c as [b|[st|]|id ctx|id info|id ip port|ev mx ac]; cbn;
    try (destruct i; reflexivity).
  destruct b as [now| |ctx|id|id sat T now|[id|] la lo al| | |dt pr];
    try discriminate; intros _; destruct i; reflexivity.
Qed.

(** The entry points that only read (get_status, get_ue_context,
    get_satellite_info, update_routing_table, get_recent_handover_events,
    update_ue_position, set_parameters) are transparent: dropping all their
    calls from a sequence changes neither the final globals nor the results of
    the calls that remain. *)
Theorem read_only_calls_transparent :
  forall (cs : list api_call) (g : globals),
    let writes := fun c => negb (read_only c) in
    snd (api_run cs g) = snd (api_run (filter writes cs) g)
    /\ map snd (filter (fun cr => writes (fst cr))
                  (combine cs (fst (api_run cs g))))
       = fst (api_run (filter writes cs) g).
Proof.
  intros cs g writes. subst writes. cbv beta. revert g.
  induction cs as [|c rest IH]; intros g; [split; reflexivity|].
  rewrite api_run_cons. cbn [fst snd combine filter].
  destruct (read_only c) eqn:E; cbn [negb].
  - rewrite (read_only_exec c g E). apply IH.
  - rewrite api_run_cons. cbn [fst snd map].
    destruct (IH (snd (api_exec c g))) as [H1 H2].
    split; [exact H1|]. f_equal. exact H2.
Qed.

Lemma wrap64_range (x : Z) : 0 <= wrap64 x < UINT64_MOD.
Proof. apply Z.mod_pos_bound. reflexivity. Qed.

Lemma initial_globals_inv : bridge_inv initial_globals.
Proof.
  constructor; cbn; try reflexivity.
  - discriminate.
  - split; [discriminate|reflexivity].
  - split; [discriminate|reflexivity].
Qed.

Lemma exec_inv (c : call) (g : globals) :
  bridge_inv g -> bridge_inv (snd (exec c g)).
Proof.
  destruct g as [i [r n a lt th sh av]]. intros [H1 H2 H3 H4 H5 H6].
  cbn in H1, H2, H3, H4, H5, H6. subst sh a av.
  destruct c as [now| |[ctx|]|[id|]|[id|] [sat|] T now|[id|] la lo al| | |dt pr];
    destruct i; cbn;
    try match goal with |- context [n >? 0] => destruct (n >? 0) end;
    constructor; cbn; auto;
    first [ discriminate
          | apply wrap32_range
          | apply wrap64_range
          | split; [discriminate|reflexivity] ].
Qed.

Lemma api_exec_inv (c : api_call) (g : globals) :
  bridge_inv g -> bridge_inv (snd (api_exec c g)).
Proof.
  intros H. destruct (read_only c) eqn:E.
  - now rewrite read_only_exec.
  - destruct c; try discriminate E. cbn [api_exec]. now apply exec_inv.
Qed.

Lemma api_run_inv (cs : list api_call) (g : globals) :
  bridge_inv g -> bridge_inv (snd (api_run cs g)).
Proof.
  revert g. induction cs as [|c rest IH]; intros g H; [exact H|].
  rewrite api_run_cons. cbn [snd]. apply IH. now apply api_exec_inv.
Qed.

(** In every state reached from the start of the process by calls of the
    interface, in any number and order, the running flag is set only while the
    engine is initialised. *)
Theorem running_implies_initialized :
  forall cs : list api_call,
    let g := snd (api_run cs initial_globals) in
    algorithm_running (g_status g) = true -> g_initialized g = true.
Proof.
  intros cs g. apply (inv_running g). apply api_run_inv, initial_globals_inv.
Qed.

(** In every state reached from the start of the process the successful
    handover counter equals the total handover counter: the bridge never
    records a handover that failed. *)
Theorem successful_equals_total_handovers :
  forall cs : list api_call,
    let g := snd (api_run cs initial_globals) in
    successful_handover_count (g_status g) = total_handover_count (g_status g).
Proof.
  intros cs g. apply (inv_handovers g). apply api_run_inv, initial_globals_inv.
Qed.

(** In every state reached from the start of the process the counters are in
    the range of their C types, while active_handover_count and
    average_handover_latency, which no entry point writes, are still zero. *)
Theorem counters_in_range_unwritten_zero :
  forall cs : list api_call,
    let g := snd (api_run cs initial_globals) in
    0 <= total_ue_count (g_status g) < UINT32_MOD
    /\ 0 <= total_handover_count (g_status g) < UINT64_MOD
    /\ 0 <= successful_handover_count (g_status g) < UINT64_MOD
    /\ active_handover_count (g_status g) = 0
    /\ average_handover_latency (g_status g) = double_zero.
Proof.
  intros cs g.
  destruct (api_run_inv cs initial_globals initial_globals_inv)
    as [H1 H2 H3 H4 H5 H6].
  fold g in H1, H2, H3, H4, H5, H6. rewrite H2. auto.
Qed.

Lemma running_implies_initialized_witness :
  g_initialized
    (snd (api_run [api_basic (call_init 1700000000);
                   api_basic call_start_periodic_update] initial_globals))
  = true.
Proof.
  apply (running_implies_initialized
           [api_basic (call_init 1700000000);
            api_basic call_start_periodic_update]).
  reflexivity.
Defined.

Lemma wrap64_small (x : Z) : 0 <= x < UINT64_MOD -> wrap64 x = x.
Proof. intros H. now apply Z.mod_small. Qed.

Lemma wrap64_add_l (x y : Z) : wrap64 (wrap64 x + y) = wrap64 (x + y).
Proof. apply Z.add_mod_idemp_l. discriminate. Qed.

(** One call that is not cleanup, on an initialised engine: the engine stays
    initialised, and the handover counters move only for a successful
    trigger_handover. *)
Lemma exec_handover_step (c : call) (g : globals) :
  g_initialized g = true -> is_cleanup c = false ->
  let bump := is_trigger c
              && match fst (exec c g) with
                 | Some SYNC_SUCCESS => true
                 | _ => false
                 end in
  g_initialized (snd (exec c g)) = true
  /\ total_handover_count (g_status (snd (exec c g)))
     = (if bump then wrap64 (total_handover_count (g_status g) + 1)
        else total_handover_count (g_status g))
  /\ successful_handover_count (g_status (snd (exec c g)))
     = (if bump then wrap64 (successful_handover_count (g_status g) + 1)
        else successful_handover_count (g_status g)).
Proof.
  destruct g as [i s]; cbn [g_initialized]; intros -> Hc.
  destruct c as [now| |[ctx|]|[id|]|[id|] [sat|] T now|[id|] la lo al| | |dt pr];
    try discriminate Hc; cbn; try (repeat split; fail).
  destruct (total_ue_count s >? 0); repeat split.
Qed.

(** Without a cleanup in between, the handover counters count the successful
    trigger_handover calls: after any sequence of calls on an initialised
    engine each counter is its initial value plus the number of
    trigger_handover calls that returned [SYNC_SUCCESS], modulo 2^64, and the
    engine is still initialised. *)
Theorem handover_counters_count_triggers :
  forall (cs : list call) (g : globals),
    g_initialized g = true ->
    forallb (fun c => negb (is_cleanup c)) cs = true ->
    0 <= total_handover_count (g_status g) < UINT64_MOD ->
    0 <= successful_handover_count (g_status g) < UINT64_MOD ->
    let log := fst (run cs g) in
    let g' := snd (run cs g) in
    g_initialized g' = true
    /\ total_handover_count (g_status g')
       = wrap64 (total_handover_count (g_status g) + successful_triggers log)
    /\ successful_handover_count (g_status g')
       = wrap64 (successful_handover_count (g_status g)
                 + successful_triggers log).
Proof.
  induction cs as [|c rest IH]; intros g Hi Hnc Ht Hs; cbv zeta.
  - cbn. unfold successful_triggers, count_entries. cbn.
    rewrite !Z.add_0_r, !wrap64_small by assumption. auto.
  - cbn [forallb] in Hnc. apply andb_prop in Hnc as [Hc Hrest].
    apply negb_true_iff in Hc.
    destruct (exec_handover_step c g Hi Hc) as (Hi1 & Ht1 & Hs1).
    rewrite run_cons. cbn [fst snd].
    unfold successful_triggers. rewrite count_entries_cons.
    cbn [le_call le_result]. unfold succeeded at 1. cbn [le_result].
    fold (successful_triggers (fst (run rest (snd (exec c g))))).
    set (bump := is_trigger c && _) in *.
    assert (Ht' : 0 <= total_handover_count (g_status (snd (exec c g)))
                  < UINT64_MOD).
    { rewrite Ht1. destruct bump; [apply wrap64_range|exact Ht]. }
    assert (Hs' : 0 <= successful_handover_count (g_status (snd (exec c g)))
                  < UINT64_MOD).
    { rewrite Hs1. destruct bump; [apply wrap64_range|exact Hs]. }
    destruct (IH (snd (exec c g)) Hi1 Hrest Ht' Hs') as (Hi2 & Ht2 & Hs2).
    split; [exact Hi2|]. rewrite Ht2, Hs2, Ht1, Hs1.
    destruct bump.
    + rewrite !wrap64_add_l. split; f_equal; lia.
    + split; f_equal; lia.
Qed.

Lemma handover_counters_count_triggers_witness :
  successful_triggers (fst (run trigger_calls (fresh_globals 0))) = 2
  /\ total_handover_count (g_status (snd (run trigger_calls (fresh_globals 0))))
     = wrap64 (0 + 2).
Proof.
  split; [reflexivity|].
  refine (proj1 (proj2 (handover_counters_count_triggers trigger_calls
                          (fresh_globals 0) eq_refl eq_refl _ _))).
  - split; [discriminate|reflexivity].
  - split; [discriminate|reflexivity].
Defined.

(** The test program exits with code 0 from any state of the engine, since
    initialisation cannot fail.  Run at the start of the process it prints a
    running engine with one subscriber and one handover, and it leaves the
    engine shut down. *)
Theorem main_exit_code :
  forall (t_init t_arg t_trigger : Z) (status0 : sync_algorithm_status_t),
    (forall g, fst (fst (main t_init t_arg t_trigger status0 g)) = 0)
    /\ fst (main t_init t_arg t_trigger status0 initial_globals)
       = (0, Some (true, 1, 1))
    /\ g_initialized (snd (main t_init t_arg t_trigger status0 initial_globals))
       = false
    /\ algorithm_running
         (g_status (snd (main t_init t_arg t_trigger status0 initial_globals)))
       = false.
Proof.
  intros t_init t_arg t_trigger status0. split; [|repeat split].
  intros [i s]. destruct i; reflexivity.
Qed.


(** * Further properties of the routing table *)

Lemma update_first_match_scan (id : string) (ip port now : Z) (t : table) :
  update_first_match id ip port now t = None <-> scan id t = None.
Proof.
  unfold scan. induction t as [|e next IH]; cbn; [tauto|].
  destruct (strcmp (re_ue_id e) id =? 0).
  - split; discriminate.
  - destruct (update_first_match id ip port now next).
    + split; [discriminate|]. intros H. apply IH in H. discriminate.
    + split; [|reflexivity]. intros _. now apply IH.
Qed.

Lemma scan_none (id : string) (t : table) :
  scan id t = None <-> ~ In id (stored_ids t).
Proof.
  rewrite <- (update_first_match_scan id 0 0 0). apply update_first_match_none.
Qed.

Lemma scan_cons (id : string) (e : routing_entry_t) (t : table) :
  scan id (e :: t) = if String.eqb (re_ue_id e) id then Some e else scan id t.
Proof. unfold scan. cbn [find]. now rewrite strcmp_eqb. Qed.

Lemma update_first_match_hit (id : string) (ip port now : Z) (t u : table) :
  update_first_match id ip port now t = Some u ->
  scan id u = Some {| re_ue_id := id; gnb_ip := ip;
                      gnb_port := port; last_update := now |}.
Proof.
  revert u. induction t as [|e next IH]; intros u H; cbn in H; [discriminate|].
  rewrite strcmp_eqb in H.
  destruct (String.eqb_spec (re_ue_id e) id) as [E|N].
  - injection H as <-. rewrite scan_cons. cbn [re_ue_id].
    rewrite E, String.eqb_refl. reflexivity.
  - destruct (update_first_match id ip port now next) as [next'|];
      [|discriminate].
    injection H as <-. rewrite scan_cons.
    apply String.eqb_neq in N. rewrite N. now apply IH.
Qed.

Lemma update_first_match_other (id id' : string) (ip port now : Z)
    (t u : table) :
  id' <> id ->
  update_first_match id ip port now t = Some u ->
  scan id' u = scan id' t.
Proof.
  intros Hd. revert u.
  induction t as [|e next IH]; intros u H; cbn in H; [discriminate|].
  rewrite strcmp_eqb in H.
  destruct (String.eqb_spec (re_ue_id e) id) as [E|N].
  - injection H as <-. rewrite !scan_cons. cbn [re_ue_id].
    destruct (String.eqb_spec (re_ue_id e) id') as [E'|N']; [congruence|].
    reflexivity.
  - destruct (update_first_match id ip port now next) as [next'|];
      [|discriminate].
    injection H as <-. rewrite !scan_cons.
    destruct (String.eqb (re_ue_id e) id'); [reflexivity|]. now apply IH.
Qed.

(** The result of an upsert is one of three codes.  It is
    [SYNC_ERROR_INVALID_PARAM] exactly for a null identifier, and
    [SYNC_ERROR_MEMORY_ALLOCATION] exactly when the identifier is not stored
    yet and the allocation fails; a stored identifier is updated even when no
    memory is left.  A call that does not succeed leaves the table as it
    was. *)
Theorem upsert_result_cases :
  forall (c : upsert_call) (t : table),
    let r := upsert_result c t in
    (r = SYNC_SUCCESS \/ r = SYNC_ERROR_INVALID_PARAM
     \/ r = SYNC_ERROR_MEMORY_ALLOCATION)
    /\ (r = SYNC_ERROR_INVALID_PARAM <-> up_ue_id c = None)
    /\ (r = SYNC_ERROR_MEMORY_ALLOCATION
        <-> exists id, up_ue_id c = Some id /\ scan id t = None
                       /\ up_malloc_ok c = false)
    /\ (r <> SYNC_SUCCESS -> do_upsert c t = t).
Proof.
  intros [id ip port now ok] t.
  unfold upsert_result, do_upsert, update_routing_entry.
  cbn [up_ue_id up_gnb_ip up_gnb_port up_now up_malloc_ok].
  destruct id as [id|].
  - destruct (update_first_match id ip port now t) as [u|] eqn:E.
    + assert (S : scan id t <> None).
      { intros K. apply update_first_match_scan with (ip := ip) (port := port)
          (now := now) in K. congruence. }
      cbn. repeat split; auto; try discriminate; try congruence.
      intros (id0 & H0 & H1 & _). injection H0 as <-. contradiction.
    + apply update_first_match_scan in E.
      destruct ok; cbn; repeat split; auto; try discriminate; try congruence.
      * intros (id0 & _ & _ & H2). discriminate.
      * intros _. exists id. auto.
  - cbn. repeat split; auto; try discriminate.
    intros (id0 & H0 & _). discriminate.
Qed.

(** An upsert adds exactly one entry when the identifier is not null, not
    stored yet, and the allocation succeeds; in every other case the table
    keeps its length and its identifiers, in the same order. *)
Theorem upsert_growth :
  forall (c : upsert_call) (t : table),
    let fresh :=
      match up_ue_id c with
      | Some id => match scan id t with
                   | None => up_malloc_ok c
                   | Some _ => false
                   end
      | None => false
      end in
    List.length (do_upsert c t)
    = (List.length t + if fresh then 1 else 0)%nat
    /\ stored_ids (do_upsert c t)
       = match up_ue_id c, fresh with
         | Some id, true => strncpy (UE_ID_SIZE - 1) id :: stored_ids t
         | _, _ => stored_ids t
         end.
Proof.
  intros [id ip port now ok] t.
  unfold do_upsert, update_routing_entry.
  cbn [up_ue_id up_gnb_ip up_gnb_port up_now up_malloc_ok].
  destruct id as [id|]; [|cbn; split; [lia|reflexivity]].
  destruct (update_first_match id ip port now t) as [u|] eqn:E.
  - destruct (scan id t) eqn:S.
    + cbn [snd]. destruct (update_first_match_frame _ _ _ _ _ _ E) as (Hl & _).
      rewrite Hl, (update_first_match_ids _ _ _ _ _ _ E).
      split; [lia|reflexivity].
    + apply update_first_match_scan with (ip := ip) (port := port)
        (now := now) in S. congruence.
  - apply update_first_match_scan in E. rewrite E.
    destruct ok; cbn [snd List.length]; split; try lia; reflexivity.
Qed.

Lemma scan_after_upsert :
  forall (id : string) (ip port now : Z) (ok : bool) (t : table),
    (String.length id <= UE_ID_SIZE - 1)%nat ->
    fst (update_routing_entry (Some id) ip port now ok t) = SYNC_SUCCESS ->
    scan id (snd (update_routing_entry (Some id) ip port now ok t))
    = Some {| re_ue_id := id; gnb_ip := ip;
              gnb_port := port; last_update := now |}.
Proof.
  intros id ip port now ok t Hfit. unfold update_routing_entry.
  destruct (update_first_match id ip port now t) as [u|] eqn:E.
  - intros _. cbn [snd]. now apply update_first_match_hit with (t := t).
  - destruct ok; cbn [fst snd]; [intros _|discriminate].
    rewrite scan_cons. unfold new_entry. cbn [re_ue_id].
    rewrite (strncpy_short _ _ Hfit), String.eqb_refl. reflexivity.
Qed.

Lemma scan_other_after_upsert :
  forall (id id' : string) (ip port now : Z) (ok : bool) (t : table),
    (String.length id <= UE_ID_SIZE - 1)%nat ->
    id' <> id ->
    scan id' (snd (update_routing_entry (Some id) ip port now ok t))
    = scan id' t.
Proof.
  intros id id' ip port now ok t Hfit Hd. unfold update_routing_entry.
  destruct (update_first_match id ip port now t) as [u|] eqn:E.
  - cbn [snd]. now apply update_first_match_other with (2 := E).
  - destruct ok; cbn [snd]; [|reflexivity].
    rewrite scan_cons. unfold new_entry. cbn [re_ue_id].
    rewrite (strncpy_short _ _ Hfit).
    apply not_eq_sym in Hd. apply String.eqb_neq in Hd. now rewrite Hd.
Qed.


Lemma update_first_match_twice (id : string) (ip port now ip' port' now' : Z)
    (t u : table) :
  update_first_match id ip port now t = Some u ->
  update_first_match id ip' port' now' u = update_first_match id ip' port' now' t.
Proof.
  revert u. induction t as [|e next IH]; intros u H; cbn in H; [discriminate|].
  destruct (strcmp (re_ue_id e) id =? 0) eqn:E.
  - injection H as <-. cbn. now rewrite E.
  - destruct (update_first_match id ip port now next) as [next'|] eqn:F;
      [|discriminate].
    injection H as <-. cbn. rewrite E. now rewrite (IH next' eq_refl).
Qed.

Lemma update_first_match_head (id : string) (ip port now ip' port' now' : Z)
    (t : table) :
  update_first_match id ip' port' now'
    ({| re_ue_id := id; gnb_ip := ip; gnb_port := port; last_update := now |} :: t)
  = Some ({| re_ue_id := id; gnb_ip := ip'; gnb_port := port';
             last_update := now' |} :: t).
Proof.
  cbn. rewrite strcmp_eqb, String.eqb_refl. reflexivity.
Qed.

(** The last write wins.  For an identifier of at most 63 bytes, an upsert
    that can allocate leaves the same table whether or not an earlier upsert
    of that identifier, successful or not, came just before it: the earlier
    endpoint is overwritten and no second entry appears. *)
Theorem upsert_last_write_wins :
  forall (id : string) (ip1 port1 now1 : Z) (ok1 : bool) (ip2 port2 now2 : Z)
         (t : table),
    (String.length id <= UE_ID_SIZE - 1)%nat ->
    do_upsert (upsert_of id ip2 port2 now2)
      (do_upsert {| up_ue_id := Some id; up_gnb_ip := ip1; up_gnb_port := port1;
                    up_now := now1; up_malloc_ok := ok1 |} t)
    = do_upsert (upsert_of id ip2 port2 now2) t.
Proof.
  intros id ip1 port1 now1 ok1 ip2 port2 now2 t Hfit.
  unfold do_upsert, upsert_of, update_routing_entry.
  cbn [up_ue_id up_gnb_ip up_gnb_port up_now up_malloc_ok].
  destruct (update_first_match id ip1 port1 now1 t) as [u|] eqn:E.
  - cbn [snd]. rewrite (update_first_match_twice _ _ _ _ ip2 port2 now2 _ _ E).
    destruct (update_first_match id ip2 port2 now2 t) eqn:E2; [reflexivity|].
    apply update_first_match_scan in E2.
    apply update_first_match_scan with (ip := ip1) (port := port1)
      (now := now1) in E2. congruence.
  - assert (E2 : update_first_match id ip2 port2 now2 t = None).
    { apply update_first_match_scan. now apply update_first_match_scan in E. }
    destruct ok1; cbn [snd].
    + unfold new_entry. rewrite (strncpy_short _ _ Hfit).
      rewrite update_first_match_head, E2. reflexivity.
    + reflexivity.
Qed.

Lemma upsert_last_write_wins_witness :
  do_upsert (upsert_of "ue-3" 167772171 2154 1700000010)
    (do_upsert (upsert_of "ue-3" 167772170 2153 1700000009) sample_table)
  = {| re_ue_id := "ue-3"; gnb_ip := 167772171; gnb_port := 2154;
       last_update := 1700000010 |} :: sample_table.
Proof.
  unfold upsert_of at 2.
  rewrite (upsert_last_write_wins "ue-3" 167772170 2153 1700000009 true
             167772171 2154 1700000010 sample_table).
  - reflexivity.
  - cbn. lia.
Defined.

(** An upsert is idempotent for an identifier of at most 63 bytes (and for a
    null one): the same call made twice, with the same clock reading and the
    same outcome of the allocation, leaves the table that one call leaves. *)
Theorem upsert_idempotent :
  forall (c : upsert_call) (t : table),
    id_fits c -> do_upsert c (do_upsert c t) = do_upsert c t.
Proof.
  intros [id ip port now ok] t Hfit. unfold id_fits in Hfit.
  cbn [up_ue_id] in Hfit.
  unfold do_upsert, update_routing_entry.
  cbn [up_ue_id up_gnb_ip up_gnb_port up_now up_malloc_ok].
  destruct id as [id|]; [|reflexivity].
  specialize (Hfit id eq_refl).
  destruct (update_first_match id ip port now t) as [u|] eqn:E.
  - cbn [snd]. now rewrite (update_first_match_twice _ _ _ _ ip port now _ _ E), E.
  - destruct ok; cbn [snd].
    + unfold new_entry. rewrite (strncpy_short _ _ Hfit).
      now rewrite update_first_match_head.
    + now rewrite E.
Qed.

Lemma upsert_idempotent_witness :
  let c := upsert_of "ue-3" 167772170 2153 1700000009 in
  do_upsert c (do_upsert c sample_table) = do_upsert c sample_table.
Proof.
  cbv zeta.
  apply (upsert_idempotent (upsert_of "ue-3" 167772170 2153 1700000009)).
  intros id H. injection H as <-. cbn. lia.
Defined.

Lemma ids_bounded_stored (t : table) :
  ids_bounded t
  <-> Forall (fun s => (String.length s <= UE_ID_SIZE - 1)%nat) (stored_ids t).
Proof. unfold ids_bounded, stored_ids. now rewrite Forall_map. Qed.

Lemma do_upsert_bounded (c : upsert_call) (t : table) :
  ids_bounded t -> ids_bounded (do_upsert c t).
Proof.
  rewrite !ids_bounded_stored. intros H.
  destruct (do_upsert_ids c t) as [->|(id & _ & _ & ->)]; [exact H|].
  constructor; [apply strncpy_length|exact H].
Qed.

(** No stored identifier ever exceeds the 63 bytes that the field of an entry
    holds besides its terminator: this is true of every table built from the
    empty one by upserts and cleanups, whatever the length of the identifiers
    passed. *)
Theorem table_ids_bounded :
  forall cs : list table_call, ids_bounded (run_table_calls cs initial_table).
Proof.
  intros cs. unfold run_table_calls.
  assert (H : ids_bounded initial_table) by constructor.
  revert H. generalize initial_table.
  induction cs as [|c rest IH]; intros t H; [exact H|].
  cbn [fold_left]. apply IH. destruct c as [u|]; cbn [table_exec].
  - now apply do_upsert_bounded.
  - constructor.
Qed.

(** An identifier of 64 bytes or more is never found again.  On a table whose
    identifiers are bounded, every upsert of such an identifier that can
    allocate succeeds by adding an entry at the head, stored under the first
    63 bytes; from then on the scan for those 63 bytes, which may be another
    subscriber's identifier, stops at the new entry. *)
Theorem long_id_always_appends :
  forall (id : string) (ip port now : Z) (t : table),
    (UE_ID_SIZE <= String.length id)%nat ->
    ids_bounded t ->
    update_routing_entry (Some id) ip port now true t
    = (SYNC_SUCCESS, new_entry id ip port now :: t)
    /\ re_ue_id (new_entry id ip port now) <> id
    /\ scan id (new_entry id ip port now :: t) = None
    /\ scan (strncpy (UE_ID_SIZE - 1) id) (new_entry id ip port now :: t)
       = Some (new_entry id ip port now).
Proof.
  intros id ip port now t Hlong Hb.
  assert (Hnew : re_ue_id (new_entry id ip port now) <> id).
  { intros E. pose proof (strncpy_length (UE_ID_SIZE - 1) id) as L.
    unfold new_entry in E. cbn [re_ue_id] in E. rewrite E in L.
    unfold UE_ID_SIZE in *. lia. }
  assert (Hnot : ~ In id (stored_ids t)).
  { intros I. apply ids_bounded_stored in Hb.
    rewrite Forall_forall in Hb. specialize (Hb id I).
    unfold UE_ID_SIZE in *. lia. }
  split; [|split; [exact Hnew|split]].
  - unfold update_routing_entry.
    apply update_first_match_none with (ip := ip) (port := port) (now := now)
      in Hnot. now rewrite Hnot.
  - rewrite scan_cons. apply String.eqb_neq in Hnew. rewrite Hnew.
    now apply scan_none.
  - rewrite scan_cons. unfold new_entry at 1. cbn [re_ue_id].
    now rewrite String.eqb_refl.
Qed.

Lemma long_id_always_appends_witness :
  update_routing_entry (Some long_ue_id) 167772170 2153 1700000009 true
    sample_table
  = (SYNC_SUCCESS,
     new_entry long_ue_id 167772170 2153 1700000009 :: sample_table).
Proof.
  refine (proj1 (long_id_always_appends long_ue_id 167772170 2153 1700000009
                   sample_table _ _)).
  - apply Nat.leb_le. reflexivity.
  - repeat constructor; apply Nat.leb_le; reflexivity.
Defined.

(** With identifiers of at most 63 bytes the table built from the empty one
    never holds two entries under one identifier: the stored identifiers are
    pairwise distinct, every identifier has at most one entry, and an
    identifier upserted with a successful allocation, however many times and
    whatever calls for other identifiers come between, has exactly one. *)
Theorem upserts_fitting_unique :
  forall cs : list upsert_call,
    ids_fit cs ->
    NoDup (stored_ids (run_upserts cs initial_table))
    /\ (forall id, (entries_for id (run_upserts cs initial_table) <= 1)%nat)
    /\ (forall id ip port now,
          In (upsert_of id ip port now) cs ->
          entries_for id (run_upserts cs initial_table) = 1%nat).
Proof.
  intros cs Hfit.
  assert (Hnd : NoDup (stored_ids (run_upserts cs initial_table))).
  { apply run_upserts_fitting_ids_NoDup; [exact Hfit|constructor]. }
  split; [exact Hnd|]. split.
  - intros id.
    destruct (in_dec string_dec id (stored_ids (run_upserts cs initial_table)))
      as [I|N].
    + rewrite (entries_for_present _ _ Hnd I). lia.
    + rewrite (entries_for_absent _ _ N). lia.
  - intros id ip port now I.
    apply (run_upserts_fitting_one_entry cs initial_table id ip port now);
      [exact Hfit|constructor|exact I].
Qed.

Lemma sample_upserts_fit : ids_fit sample_upserts.
Proof.
  unfold ids_fit, sample_upserts.
  repeat (apply Forall_cons;
          [intros id H; injection H as <-; apply Nat.leb_le; reflexivity|]).
  apply Forall_nil.
Defined.

Lemma upserts_fitting_unique_witness :
  entries_for "ue-1" (run_upserts sample_upserts initial_table) = 1%nat
  /\ NoDup (stored_ids (run_upserts sample_upserts initial_table)).
Proof.
  destruct (upserts_fitting_unique sample_upserts sample_upserts_fit)
    as (Hnd & _ & Hone).
  split; [|exact Hnd].
  apply (Hone "ue-1" 167772161 2152 1700000000). left. reflexivity.
Defined.

(** Upserts only ever add at the head: after any sequence of upserts the
    identifiers stored before are all still there, in the same order, behind
    at most one new identifier per call.  Nothing but cleanup removes an
    entry. *)
Theorem upserts_only_prepend :
  forall (cs : list upsert_call) (t : table),
    exists added : list string,
      stored_ids (run_upserts cs t) = (added ++ stored_ids t)%list
      /\ (List.length added <= List.length cs)%nat.
Proof.
  unfold run_upserts. induction cs as [|c rest IH]; intros t.
  - exists []. split; [reflexivity|cbn; lia].
  - cbn [fold_left]. destruct (IH (do_upsert c t)) as (added & Ha & Hl).
    destruct (do_upsert_ids c t) as [E|(id & _ & _ & E)]; rewrite E in Ha.
    + exists added. split; [exact Ha|cbn; lia].
    + exists (added ++ [strncpy (UE_ID_SIZE - 1) id])%list. split.
      * rewrite Ha, <- app_assoc. reflexivity.
      * rewrite length_app. cbn. lia.
Qed.

(** cleanup_routing_table forgets everything: whatever table and calls came
    before it, the calls that follow act as on the empty table of the start
    of the process. *)
Theorem cleanup_resets_table :
  forall (before after : list table_call) (t : table),
    run_table_calls (before ++ table_cleanup :: after)%list t
    = run_table_calls after initial_table.
Proof.
  intros before after t. unfold run_table_calls.
  rewrite fold_left_app. reflexivity.
Qed.

(** What the scan finds after an upsert of an identifier of at most 63 bytes:
    under that identifier the values of the call, unless the identifier was
    not stored and the allocation failed; under any other identifier what it
    found before. *)
Lemma scan_do_upsert (c : upsert_call) (t : table) (id : string) :
  id_fits c ->
  scan id (do_upsert c t)
  = match up_ue_id c with
    | Some id' =>
        if String.eqb id' id
        then match scan id t with
             | None => if up_malloc_ok c
                       then Some {| re_ue_id := id; gnb_ip := up_gnb_ip c;
                                    gnb_port := up_gnb_port c;
                                    last_update := up_now c |}
                       else None
             | Some _ => Some {| re_ue_id := id; gnb_ip := up_gnb_ip c;
                                 gnb_port := up_gnb_port c;
                                 last_update := up_now c |}
             end
        else scan id t
    | None => scan id t
    end.
Proof.
  destruct c as [[id'|] ip port now ok]; unfold id_fits;
    cbn [up_ue_id up_gnb_ip up_gnb_port up_now up_malloc_ok]; intros Hfit;
    [|reflexivity].
  specialize (Hfit id' eq_refl). unfold do_upsert.
  cbn [up_ue_id up_gnb_ip up_gnb_port up_now up_malloc_ok].
  destruct (String.eqb_spec id' id) as [->|N].
  - destruct (scan id t) eqn:S.
    + apply scan_after_upsert; [exact Hfit|].
      unfold update_routing_entry.
      destruct (update_first_match id ip port now t) eqn:E; [reflexivity|].
      apply update_first_match_scan in E. congruence.
    + destruct ok.
      * apply scan_after_upsert; [exact Hfit|].
        unfold update_routing_entry.
        now destruct (update_first_match id ip port now t).
      * unfold update_routing_entry.
        apply update_first_match_scan with (ip := ip) (port := port)
          (now := now) in S. rewrite S. cbn [snd].
        now apply update_first_match_scan in S.
  - apply scan_other_after_upsert; [exact Hfit|congruence].
Qed.

(** Upserts for different subscribers commute as far as any scan can tell:
    for two calls with different identifiers of at most 63 bytes, the entry
    found under every identifier is the same in whichever order the two
    calls are made. *)
Theorem upserts_commute_scan :
  forall (c1 c2 : upsert_call) (t : table) (id : string),
    id_fits c1 -> id_fits c2 ->
    up_ue_id c1 <> up_ue_id c2 ->
    scan id (do_upsert c1 (do_upsert c2 t))
    = scan id (do_upsert c2 (do_upsert c1 t)).
Proof.
  intros c1 c2 t id F1 F2 Hd.
  rewrite (scan_do_upsert c1 (do_upsert c2 t) id F1).
  rewrite (scan_do_upsert c2 (do_upsert c1 t) id F2).
  rewrite (scan_do_upsert c2 t id F2), (scan_do_upsert c1 t id F1).
  destruct (up_ue_id c1) as [id1|], (up_ue_id c2) as [id2|]; try reflexivity.
  destruct (String.eqb_spec id1 id) as [E1|N1];
    destruct (String.eqb_spec id2 id) as [E2|N2]; try reflexivity.
  congruence.
Qed.

Lemma upserts_commute_scan_witness :
  scan "ue-3"
    (do_upsert (upsert_of "ue-3" 167772170 2153 1700000009)
       (do_upsert (upsert_of "ue-1" 167772171 2154 1700000010) sample_table))
  = scan "ue-3"
      (do_upsert (upsert_of "ue-1" 167772171 2154 1700000010)
         (do_upsert (upsert_of "ue-3" 167772170 2153 1700000009) sample_table)).
Proof.
  apply (upserts_commute_scan (upsert_of "ue-3" 167772170 2153 1700000009)
           (upsert_of "ue-1" 167772171 2154 1700000010) sample_table "ue-3").
  - intros id H. injection H as <-. apply Nat.leb_le. reflexivity.
  - intros id H. injection H as <-. apply Nat.leb_le. reflexivity.
  - discriminate.
Defined.

(** Looking up after an upsert.  When an upsert of an identifier of at most 63
    bytes succeeds, the scan for that identifier stops at an entry holding
    exactly the address, port and time of the call. *)
Theorem upsert_then_scan :
  forall (id : string) (ip port now : Z) (ok : bool) (t : table),
    (String.length id <= UE_ID_SIZE - 1)%nat ->
    fst (update_routing_entry (Some id) ip port now ok t) = SYNC_SUCCESS ->
    scan id (snd (update_routing_entry (Some id) ip port now ok t))
    = Some {| re_ue_id := id; gnb_ip := ip;
              gnb_port := port; last_update := now |}.
Proof. exact scan_after_upsert. Qed.

Lemma upsert_then_scan_witness :
  scan "ue-3" (snd (update_routing_entry (Some "ue-3") 167772170 2153
                      1700000009 true sample_table))
  = Some {| re_ue_id := "ue-3"; gnb_ip := 167772170;
            gnb_port := 2153; last_update := 1700000009 |}.
Proof.
  apply (upsert_then_scan "ue-3" 167772170 2153 1700000009 true sample_table).
  - cbn. lia.
  - reflexivity.
Defined.

(** An upsert of an identifier of at most 63 bytes does not change what the
    scan finds for any other identifier. *)
Theorem upsert_scan_other :
  forall (id id' : string) (ip port now : Z) (ok : bool) (t : table),
    (String.length id <= UE_ID_SIZE - 1)%nat ->
    id' <> id ->
    scan id' (snd (update_routing_entry (Some id) ip port now ok t))
    = scan id' t.
Proof. exact scan_other_after_upsert. Qed.

Lemma upsert_scan_other_witness :
  scan "ue-2" (snd (update_routing_entry (Some "ue-1") 167772170 2153
                      1700000009 true sample_table))
  = Some sample_entry_2.
Proof.
  rewrite (upsert_scan_other "ue-1" "ue-2" 167772170 2153 1700000009 true
             sample_table).
  - reflexivity.
  - cbn. lia.
  - discriminate.
Defined.
